(** * fifobuff: a fixed-capacity FIFO buffer and its thread-safe wrapper

    A shallow embedding of [fifobuff.hpp].  The module [Ring] embeds the
    single-threaded class template [FIFOBuff<T>]; the module [TS] embeds the
    wrapper [FIFOBuff_TS<T>], both as methods that one thread runs to the end
    and as a machine of threads that interleave on a mutex and two counting
    semaphores.  [RingFacts] and [TSFacts] hold what is proved about them.

    Conventions of the embedding.
    - [size_t] is a 64-bit unsigned integer, carried as a [Z] in
      [0, SIZE_MAX]; [++], [--] and [+ 1] wrap around explicitly.
    - The raw storage [item_mem_t *buffer] is a list of [slot]s.  A slot
      remembers whether an object of type [T] currently lives in it, since
      the class manages lifetimes by hand (placement [new], explicit [~T()]).
    - Every method returns an [outcome]: either [Fault] (the C++ program has
      no defined behaviour: a remainder by zero, an access outside the
      storage, a store through a null pointer) or [Ret a tr], the result
      together with the list of storage events the call performed. *)

From stdpp Require Import base list.
From Stdlib Require Import ZArith Lia.

Local Open Scope Z_scope.

(** ** Machine integers *)

Definition SIZE_MAX : Z := 2 ^ 64 - 1.

(** Reduction of an arithmetic result to [size_t]. *)
Definition size_t_wrap (z : Z) : Z := z mod (SIZE_MAX + 1).

Definition is_size_t (z : Z) : Prop := 0 <= z <= SIZE_MAX.

(** ** Outcomes: a result with its trace of events, or a fault *)

Inductive outcome (E A : Type) : Type :=
| Fault : outcome E A
| Ret (a : A) (tr : list E) : outcome E A.

Arguments Fault {E A}.
Arguments Ret {E A} a tr.

Definition bind {E A B : Type} (m : outcome E A) (k : A -> outcome E B)
  : outcome E B :=
  match m with
  | Fault => Fault
  | Ret a tr =>
      match k a with
      | Fault => Fault
      | Ret b tr' => Ret b (tr ++ tr')
      end
  end.

Notation "x <- m ;; k" := (bind m (fun x => k))
  (at level 100, m at next level, right associativity).

(** Splits a goal into its conjuncts as they are written. *)
Ltac conjuncts :=
  repeat match goal with |- _ /\ _ => split end;
  try reflexivity; try assumption.

(** * The single-threaded ring buffer, [FIFOBuff<T>] *)

Module Ring.
Section FIFOBuff.

Context {T : Type}.

(** One element slot of the raw storage. *)
Inductive slot : Type :=
| Raw                (* never constructed: indeterminate bytes *)
| Live (v : T)       (* holds a constructed object *)
| Dead (v : T).      (* object destructed; its bytes are left behind *)

(** What a read of type [T] yields, and what a [T] variable holds. *)
Inductive rvalue : Type :=
| Indet              (* indeterminate: uninitialised *)
| Val (v : T).

Definition slot_load (s : slot) : rvalue :=
  match s with
  | Raw => Indet
  | Live v => Val v
  | Dead v => Val v
  end.

(** [->~T()] applied to a slot.  Only a live object can be finalized; on any
    other slot the call leaves the bytes as they are (it is still recorded in
    the trace, with the state of the slot it hit). *)
Definition slot_destruct (s : slot) : slot :=
  match s with
  | Raw => Raw
  | Live v => Dead v
  | Dead v => Dead v
  end.

Definition is_live (s : slot) : bool :=
  match s with Live _ => true | _ => false end.

(** Storage events of a call. *)
Inductive event : Type :=
| Construct (i : Z) (v : T)      (* new (buffer + i) T(v) *)
| Destruct (i : Z) (s : slot)    (* (buffer + i)->~T(), slot state before *)
| Load (i : Z).                  (* *(buffer + i) read *)

Definition M (A : Type) : Type := outcome event A.

(** [*reinterpret_cast<T*>(buffer + i)] as an rvalue. *)
Definition load (i : Z) (buf : list slot) : M rvalue :=
  match buf !! Z.to_nat i with
  | Some s => Ret (slot_load s) [Load i]
  | None => Fault
  end.

(** [new (buffer + i) T(item)]. *)
Definition construct (i : Z) (item : T) (buf : list slot) : M (list slot) :=
  match buf !! Z.to_nat i with
  | Some _ => Ret (<[Z.to_nat i := Live item]> buf) [Construct i item]
  | None => Fault
  end.

(** [reinterpret_cast<T*>(buffer + i)->~T()]. *)
Definition destruct_at (i : Z) (buf : list slot) : M (list slot) :=
  match buf !! Z.to_nat i with
  | Some s => Ret (<[Z.to_nat i := slot_destruct s]> buf) [Destruct i s]
  | None => Fault
  end.

(** [a % b] on [size_t]. *)
Definition umod (a b : Z) : M Z :=
  if b =? 0 then Fault else Ret (a mod b) [].

Record FIFOBuff : Type := mkFIFOBuff {
  buffer : list slot;
  head : Z;
  tail : Z;
  fifo_size : Z;
  fifo_cap : Z;
  free_mem : bool
}.

(** [FIFOBuff(size_t max_cap)]: storage allocated by the buffer. *)
Definition FIFOBuff_new (max_cap : Z) : FIFOBuff :=
  {| buffer := replicate (Z.to_nat max_cap) Raw;
     head := 0; tail := 0; fifo_size := 0; fifo_cap := max_cap;
     free_mem := true |}.

(** [FIFOBuff(void *buf, size_t max_cap)]: storage supplied by the caller. *)
Definition FIFOBuff_ext (buf : list slot) (max_cap : Z) : FIFOBuff :=
  {| buffer := buf;
     head := 0; tail := 0; fifo_size := 0; fifo_cap := max_cap;
     free_mem := false |}.

Definition size (b : FIFOBuff) : Z := fifo_size b.
Definition capacity (b : FIFOBuff) : Z := fifo_cap b.

Definition add (item : T) (b : FIFOBuff) : M (bool * FIFOBuff) :=
  if fifo_size b <? fifo_cap b then
    buf' <- construct (tail b) item (buffer b) ;;
    tail' <- umod (size_t_wrap (tail b + 1)) (fifo_cap b) ;;
    Ret (true,
         {| buffer := buf'; head := head b; tail := tail';
            fifo_size := size_t_wrap (fifo_size b + 1);
            fifo_cap := fifo_cap b; free_mem := free_mem b |}) []
  else Ret (false, b) [].

(** [pitem] is [None] for [nullptr] and [Some x] for a pointer to a variable
    that holds [x]; the second component of the result is that variable
    after the call. *)
Definition remove (pitem : option rvalue) (b : FIFOBuff)
  : M (bool * option rvalue * FIFOBuff) :=
  if fifo_size b =? 0 then Ret (false, pitem, b) []
  else
    pitem' <- match pitem with
              | Some _ => x <- load (head b) (buffer b) ;; Ret (Some x) []
              | None => Ret None []
              end ;;
    buf' <- destruct_at (tail b) (buffer b) ;;
    head' <- umod (size_t_wrap (head b + 1)) (fifo_cap b) ;;
    Ret (true, pitem',
         {| buffer := buf'; head := head'; tail := tail b;
            fifo_size := size_t_wrap (fifo_size b - 1);
            fifo_cap := fifo_cap b; free_mem := free_mem b |}) [].

(** [peek] stores through [pitem] without a null check. *)
Definition peek (pitem : option rvalue) (b : FIFOBuff)
  : M (bool * option rvalue) :=
  if 0 <? fifo_size b then
    match pitem with
    | Some _ => x <- load (tail b) (buffer b) ;; Ret (true, Some x) []
    | None => Fault
    end
  else Ret (false, pitem) [].

(** The [while] loop of [~FIFOBuff()].  [None] means the fuel ran out before
    the loop condition turned false. *)
Fixpoint dtor_loop (fuel : nat) (b : FIFOBuff) : option (M FIFOBuff) :=
  if 0 <? fifo_size b then
    match fuel with
    | O => None
    | S fuel' =>
        match
          (buf' <- destruct_at (head b) (buffer b) ;;
           head' <- umod (size_t_wrap (head b + 1)) (fifo_cap b) ;;
           Ret {| buffer := buf'; head := head'; tail := tail b;
                  fifo_size := size_t_wrap (fifo_size b - 1);
                  fifo_cap := fifo_cap b; free_mem := free_mem b |} [])
        with
        | Fault => Some Fault
        | Ret b' tr =>
            match dtor_loop fuel' b' with
            | None => None
            | Some m => Some (x <- Ret b' tr ;; m)
            end
        end
    end
  else Some (Ret b []).

(** What is left of the storage once the buffer object is gone. *)
Record remains : Type := mkRemains {
  memory : list slot;      (* the slots as the destructor left them *)
  released : bool          (* [delete [] buffer] was executed *)
}.

(** [~FIFOBuff()]. *)
Definition FIFOBuff_dtor (fuel : nat) (b : FIFOBuff) : option (M remains) :=
  match dtor_loop fuel b with
  | None => None
  | Some m =>
      Some (b' <- m ;;
            Ret {| memory := buffer b'; released := free_mem b' |} [])
  end.

(** ** Sequences of calls *)

Inductive op : Type :=
| Add (item : T)
| Remove (pitem : option rvalue)
| Peek (cur : rvalue).           (* [peek(&x)] with [x] holding [cur] *)

(** The result of one call: the boolean and the caller's variable. *)
Definition result : Type := (bool * option rvalue)%type.

Definition step (o : op) (b : FIFOBuff) : M (result * FIFOBuff) :=
  match o with
  | Add item =>
      r <- add item b ;; Ret ((fst r, None), snd r) []
  | Remove pitem =>
      r <- remove pitem b ;; Ret ((fst (fst r), snd (fst r)), snd r) []
  | Peek cur =>
      r <- peek (Some cur) b ;; Ret (r, b) []
  end.

Fixpoint run (ops : list op) (b : FIFOBuff) : M (list result * FIFOBuff) :=
  match ops with
  | [] => Ret ([], b) []
  | o :: ops' =>
      r <- step o b ;;
      rs <- run ops' (snd r) ;;
      Ret (fst r :: fst rs, snd rs) []
  end.

(** A buffer as one of the two constructors leaves it.  The second
    constructor requires storage for at least [max_cap] elements. *)
Inductive constructed : FIFOBuff -> Prop :=
| constructed_new (max_cap : Z) :
    is_size_t max_cap -> constructed (FIFOBuff_new max_cap)
| constructed_ext (buf : list slot) (max_cap : Z) :
    is_size_t max_cap -> max_cap <= Z.of_nat (length buf) ->
    constructed (FIFOBuff_ext buf max_cap).

(** The buffers a program can hold: constructed, then operated on. *)
Definition reachable (b : FIFOBuff) : Prop :=
  exists init ops rs tr,
    constructed init /\ run ops init = Ret (rs, b) tr.

(** ** Invariants *)

(** The shape every reachable buffer has.  [wf_tail] ties the three counters
    together: the occupied window starts at [head] and ends before [tail]. *)
Record wf (b : FIFOBuff) : Prop := mkWf {
  wf_cap : is_size_t (fifo_cap b);
  wf_mem : fifo_cap b <= Z.of_nat (length (buffer b));
  wf_size : 0 <= fifo_size b <= fifo_cap b;
  wf_head : 0 <= head b < Z.max 1 (fifo_cap b);
  wf_tail : tail b = (head b + fifo_size b) mod fifo_cap b
}.

(** The index of the [k]-th oldest element. *)
Definition nth_index (b : FIFOBuff) (k : nat) : nat :=
  Z.to_nat ((head b + Z.of_nat k) mod fifo_cap b).

(** [repr b q]: the window of [b] holds exactly the live objects [q], oldest
    first. *)
Definition repr (b : FIFOBuff) (q : list T) : Prop :=
  wf b /\
  fifo_size b = Z.of_nat (length q) /\
  forall (k : nat) (v : T),
    q !! k = Some v -> buffer b !! nth_index b k = Some (Live v).

(** The counter bounds of a buffer of positive capacity. *)
Definition bounds (b : FIFOBuff) : Prop :=
  0 <= fifo_size b <= fifo_cap b /\
  0 <= head b < fifo_cap b /\
  0 <= tail b < fifo_cap b.

(** The data-model invariant of the storage: a slot holds a live object if
    and only if it is one of the [fifo_size] slots starting at [head]. *)
Definition in_window (b : FIFOBuff) (i : nat) : Prop :=
  exists k : nat, Z.of_nat k < fifo_size b /\ i = nth_index b k.

Definition live_iff_window (b : FIFOBuff) : Prop :=
  forall (i : nat) (s : slot),
    buffer b !! i = Some s -> (is_live s = true <-> in_window b i).

(** ** Bookkeeping of object lifetimes *)

(** The counter of an instance-counting element type ([Dummy::count] of the
    tests): up by one per constructor call, down by one per destructor
    call, whatever the destructor was applied to. *)
Definition count_delta (e : event) : Z :=
  match e with
  | Construct _ _ => 1
  | Destruct _ _ => -1
  | Load _ => 0
  end.

Definition instance_count (tr : list event) : Z :=
  foldr (fun e acc => count_delta e + acc) 0 tr.

(** Destructor calls that did not finalize a live object. *)
Definition stray_destruct (e : event) : bool :=
  match e with
  | Destruct _ s => negb (is_live s)
  | _ => false
  end.

(** Objects still alive in a piece of storage. *)
Definition live_objects (mem : list slot) : list slot :=
  filter (fun s => is_live s = true) mem.

(** ** Reading results *)

Definition ok (r : result) : bool := fst r.

(** What a successful [remove(pitem)] of the element [v] leaves in the
    caller's variable. *)
Definition deliver (pitem : option rvalue) (v : T) : option rvalue :=
  match pitem with
  | Some _ => Some (Val v)
  | None => None
  end.

(** The storage events of the copy into [*pitem] from slot [i]. *)
Definition copy_out (pitem : option rvalue) (i : Z) : list event :=
  match pitem with Some _ => [Load i] | None => [] end.

(** The arguments of the [add] calls of a sequence, in order. *)
Fixpoint added (ops : list op) : list T :=
  match ops with
  | [] => []
  | Add item :: ops' => item :: added ops'
  | _ :: ops' => added ops'
  end.

(** The [pitem] arguments of the [remove] calls, in order. *)
Fixpoint remove_ptrs (ops : list op) : list (option rvalue) :=
  match ops with
  | [] => []
  | Remove pitem :: ops' => pitem :: remove_ptrs ops'
  | _ :: ops' => remove_ptrs ops'
  end.

(** The caller's variables after the [remove] calls, in order. *)
Fixpoint removed (ops : list op) (rs : list result) : list (option rvalue) :=
  match ops, rs with
  | Remove _ :: ops', r :: rs' => snd r :: removed ops' rs'
  | _ :: ops', _ :: rs' => removed ops' rs'
  | _, _ => []
  end.

(** Every [add] and every [remove] of the sequence returned [true]. *)
Fixpoint all_accepted (ops : list op) (rs : list result) : bool :=
  match ops, rs with
  | Peek _ :: ops', _ :: rs' => all_accepted ops' rs'
  | _ :: ops', r :: rs' => ok r && all_accepted ops' rs'
  | [], [] => true
  | _, _ => false
  end.

(** The condition on a sequence of calls under which the queue is neither
    overrun nor underrun, read off the sequence alone: counting from [n]
    queued elements, no [add] comes while [cap] elements are queued and no
    [remove] while none is.  [peek] may come at any point. *)
Fixpoint never_overrun (cap n : Z) (ops : list op) : bool :=
  match ops with
  | [] => true
  | Add _ :: ops' => (n <? cap) && never_overrun cap (n + 1) ops'
  | Remove _ :: ops' => (0 <? n) && never_overrun cap (n - 1) ops'
  | Peek _ :: ops' => never_overrun cap n ops'
  end.

(** What a call leaves in the caller's variable when it returns [false]. *)
Definition untouched (o : op) : result :=
  match o with
  | Add _ => (false, None)
  | Remove pitem => (false, pitem)
  | Peek cur => (false, Some cur)
  end.

(** Accepted [add] calls minus accepted [remove] calls. *)
Fixpoint net_accepted (ops : list op) (rs : list result) : Z :=
  match ops, rs with
  | Add _ :: ops', r :: rs' =>
      (if ok r then 1 else 0) + net_accepted ops' rs'
  | Remove _ :: ops', r :: rs' =>
      (if ok r then -1 else 0) + net_accepted ops' rs'
  | Peek _ :: ops', _ :: rs' => net_accepted ops' rs'
  | _, _ => 0
  end.

(** ** A bounded queue of values, to compare the buffer with *)

(** One call on a queue [q] of at most [cap] values.  For [peek] the model
    gives the boolean only. *)
Definition model_step (cap : Z) (o : op) (q : list T) : result * list T :=
  match o with
  | Add item =>
      if Z.of_nat (length q) <? cap then ((true, None), q ++ [item])
      else ((false, None), q)
  | Remove pitem =>
      match q with
      | [] => ((false, pitem), [])
      | v :: q' => ((true, deliver pitem v), q')
      end
  | Peek _ =>
      ((match q with [] => false | _ :: _ => true end, None), q)
  end.

Fixpoint model_run (cap : Z) (ops : list op) (q : list T)
  : list result * list T :=
  match ops with
  | [] => ([], q)
  | o :: ops' =>
      let r := model_step cap o q in
      let rs := model_run cap ops' (snd r) in
      (fst r :: fst rs, snd rs)
  end.

(** The result of a call without the value [peek] stored. *)
Definition forget_peeked (o : op) (r : result) : result :=
  match o with
  | Peek _ => (fst r, None)
  | _ => r
  end.

Fixpoint forget_all_peeked (ops : list op) (rs : list result) : list result :=
  match ops, rs with
  | o :: ops', r :: rs' => forget_peeked o r :: forget_all_peeked ops' rs'
  | _, _ => []
  end.

(** The destructor calls of [~FIFOBuff()] on a buffer whose window holds
    [q]: one per element, from [head] on. *)
Definition window_destructs (b : FIFOBuff) (q : list T) : list event :=
  imap (fun k v => Destruct ((head b + Z.of_nat k) mod fifo_cap b) (Live v))
       q.

(** No object lives outside the window. *)
Definition no_stray_object (b : FIFOBuff) : Prop :=
  forall (i : nat) (s : slot),
    buffer b !! i = Some s -> is_live s = true -> in_window b i.

End FIFOBuff.
End Ring.

(** * The thread-safe wrapper, [FIFOBuff_TS<T>]

    The source checks the result of no POSIX call.  [sem_open] takes the
    initial value as an [unsigned int] and refuses one above
    [SEM_VALUE_MAX]; [init] hands it [fifo.capacity()], a [size_t], so the
    semaphore starts at [unsigned_int] of the capacity, and exists at all
    only under [sem_open_ok].  The model is of LP64 Linux with glibc: 64-bit
    [size_t], 32-bit [unsigned int], [SEM_VALUE_MAX] equal to [INT_MAX].
    Where [sem_open] succeeds it yields a fresh semaphore, and a semaphore
    is its counter.  A call that cannot proceed ([sem_wait] on zero,
    [pthread_mutex_lock] on a held mutex) is not enabled: [None] in the
    [exec] monad below. *)

Module TS.
Section FIFOBuff_TS.

Context {T : Type}.

Local Abbreviation rvalue := (@Ring.rvalue T).

(** The two named semaphores, "TSQueue_AddSem" and "TSQueue_RemSem". *)
Inductive sem : Type := AddSem | RemSem.

(** A call of one of the four methods that move an element, with its
    argument. *)
Inductive transfer : Type :=
| CAdd (item : T)
| CAddWait (item : T)
| CRemove (pitem : option rvalue)
| CRemoveWait (pitem : option rvalue).

(** A call of one of the five public methods. *)
Inductive call : Type :=
| Transfer (c : transfer)
| CPeek (cur : rvalue).           (* peek(&x) with x holding cur *)

Inductive event : Type :=
| TryWait (s : sem) (acquired : bool)   (* sem_trywait(s) == 0 *)
| Wait (s : sem)                        (* sem_wait(s) returned *)
| Post (s : sem)                        (* sem_post(s) *)
| Lock (t : nat)                        (* thread t locked the mutex *)
| Unlock (t : nat)                      (* thread t unlocked the mutex *)
| Fifo (e : @Ring.event T)              (* a storage event of [fifo] *)
| Returned (t : nat) (c : call) (r : bool) (out : option rvalue).
    (* thread t came back from call c with result r (true for the two
       void methods) and its variable holding out *)

(** [None]: the call blocks.  [Some Fault]: no defined behaviour. *)
Definition exec (A : Type) : Type := option (outcome event A).

Definition ret {A : Type} (a : A) (tr : list event) : exec A :=
  Some (Ret a tr).

Definition ebind {A B : Type} (m : exec A) (k : A -> exec B) : exec B :=
  match m with
  | None => None
  | Some Fault => Some Fault
  | Some (Ret a tr) =>
      match k a with
      | None => None
      | Some Fault => Some Fault
      | Some (Ret b tr') => Some (Ret b (tr ++ tr'))
      end
  end.

Notation "x <~ m ;; k" := (ebind m (fun x => k))
  (at level 100, m at next level, right associativity).

Record FIFOBuff_TS : Type := mkFIFOBuff_TS {
  fifo : @Ring.FIFOBuff T;
  mutex : option nat;        (* the thread that holds the mutex, if any *)
  add_sem : Z;
  rem_sem : Z
}.

(** The fourth argument of [sem_open] is read as an [unsigned int]: of a
    [size_t] it keeps the low 32 bits. *)
Definition UINT_MAX : Z := 2 ^ 32 - 1.

Definition unsigned_int (z : Z) : Z := z mod (UINT_MAX + 1).

(** The largest value of a semaphore, [SEM_VALUE_MAX] of <limits.h>. *)
Definition SEM_VALUE_MAX : Z := 2 ^ 31 - 1.

(** [sem_open(name, O_CREAT, 0600, value)] creates the semaphore; it
    returns [SEM_FAILED] when the value it reads exceeds [SEM_VALUE_MAX]. *)
Definition sem_open_ok (value : Z) : Prop :=
  unsigned_int value <= SEM_VALUE_MAX.

(** [init()], where both calls of [sem_open] succeed: the one for
    "TSQueue_RemSem" asks for 0, the one for "TSQueue_AddSem" for
    [fifo.capacity()], so under [sem_open_ok (Ring.capacity f)]. *)
Definition init (f : @Ring.FIFOBuff T) : FIFOBuff_TS :=
  {| fifo := f; mutex := None;
     add_sem := unsigned_int (Ring.capacity f); rem_sem := 0 |}.

(** [FIFOBuff_TS(size_t max_cap)]. *)
Definition FIFOBuff_TS_new (max_cap : Z) : FIFOBuff_TS :=
  init (Ring.FIFOBuff_new max_cap).

(** [FIFOBuff_TS(void *buf, size_t max_cap)]. *)
Definition FIFOBuff_TS_ext (buf : list (@Ring.slot T)) (max_cap : Z)
  : FIFOBuff_TS :=
  init (Ring.FIFOBuff_ext buf max_cap).

(** ** The primitives *)

Definition sem_value (s : sem) (q : FIFOBuff_TS) : Z :=
  match s with AddSem => add_sem q | RemSem => rem_sem q end.

Definition set_sem (s : sem) (v : Z) (q : FIFOBuff_TS) : FIFOBuff_TS :=
  match s with
  | AddSem => {| fifo := fifo q; mutex := mutex q;
                 add_sem := v; rem_sem := rem_sem q |}
  | RemSem => {| fifo := fifo q; mutex := mutex q;
                 add_sem := add_sem q; rem_sem := v |}
  end.

(** [sem_trywait(s) == 0], never blocking. *)
Definition sem_trywait (s : sem) (q : FIFOBuff_TS)
  : exec (bool * FIFOBuff_TS) :=
  if 0 <? sem_value s q
  then ret (true, set_sem s (sem_value s q - 1) q) [TryWait s true]
  else ret (false, q) [TryWait s false].

Definition sem_wait (s : sem) (q : FIFOBuff_TS) : exec FIFOBuff_TS :=
  if 0 <? sem_value s q
  then ret (set_sem s (sem_value s q - 1) q) [Wait s]
  else None.

Definition sem_post (s : sem) (q : FIFOBuff_TS) : exec FIFOBuff_TS :=
  ret (set_sem s (sem_value s q + 1) q) [Post s].

Definition set_mutex (o : option nat) (q : FIFOBuff_TS) : FIFOBuff_TS :=
  {| fifo := fifo q; mutex := o; add_sem := add_sem q; rem_sem := rem_sem q |}.

Definition pthread_mutex_lock (t : nat) (q : FIFOBuff_TS) : exec FIFOBuff_TS :=
  match mutex q with
  | None => ret (set_mutex (Some t) q) [Lock t]
  | Some _ => None
  end.

(** Unlocking a mutex the caller does not hold has no defined behaviour. *)
Definition pthread_mutex_unlock (t : nat) (q : FIFOBuff_TS)
  : exec FIFOBuff_TS :=
  match mutex q with
  | Some t' => if Nat.eqb t t' then ret (set_mutex None q) [Unlock t]
               else Some Fault
  | None => Some Fault
  end.

Definition set_fifo (f : @Ring.FIFOBuff T) (q : FIFOBuff_TS) : FIFOBuff_TS :=
  {| fifo := f; mutex := mutex q; add_sem := add_sem q; rem_sem := rem_sem q |}.

(** A call into the wrapped buffer; its storage events become [Fifo] events. *)
Definition on_fifo {A : Type} (m : @Ring.M T A) : exec A :=
  match m with
  | Fault => Some Fault
  | Ret a tr => ret a (map Fifo tr)
  end.

(** ** The methods, as one thread [t] runs them without interruption *)

Definition add (t : nat) (item : T) (q : FIFOBuff_TS)
  : exec (bool * FIFOBuff_TS) :=
  w <~ sem_trywait AddSem q ;;
  if fst w then
    q1 <~ pthread_mutex_lock t (snd w) ;;
    r <~ on_fifo (Ring.add item (fifo q1)) ;;
    q2 <~ pthread_mutex_unlock t (set_fifo (snd r) q1) ;;
    q3 <~ sem_post RemSem q2 ;;
    ret (true, q3) []
  else ret (false, snd w) [].

Definition add_wait (t : nat) (item : T) (q : FIFOBuff_TS)
  : exec FIFOBuff_TS :=
  q0 <~ sem_wait AddSem q ;;
  q1 <~ pthread_mutex_lock t q0 ;;
  r <~ on_fifo (Ring.add item (fifo q1)) ;;
  q2 <~ pthread_mutex_unlock t (set_fifo (snd r) q1) ;;
  sem_post RemSem q2.

(** The body of [peek] between lock and unlock. *)
Definition peek_locked (item : option rvalue) (q : FIFOBuff_TS)
  : exec (bool * option rvalue) :=
  if 0 <? Ring.size (fifo q) then
    r <~ on_fifo (Ring.peek item (fifo q)) ;;
    ret (true, snd r) []
  else ret (false, item) [].

Definition peek (t : nat) (item : option rvalue) (q : FIFOBuff_TS)
  : exec (bool * option rvalue * FIFOBuff_TS) :=
  q1 <~ pthread_mutex_lock t q ;;
  r <~ peek_locked item q1 ;;
  q2 <~ pthread_mutex_unlock t q1 ;;
  ret (r, q2) [].

Definition remove (t : nat) (pitem : option rvalue) (q : FIFOBuff_TS)
  : exec (bool * option rvalue * FIFOBuff_TS) :=
  w <~ sem_trywait RemSem q ;;
  if fst w then
    q1 <~ pthread_mutex_lock t (snd w) ;;
    r <~ on_fifo (Ring.remove pitem (fifo q1)) ;;
    q2 <~ pthread_mutex_unlock t (set_fifo (snd r) q1) ;;
    q3 <~ sem_post AddSem q2 ;;
    ret (true, snd (fst r), q3) []
  else ret (false, pitem, snd w) [].

Definition remove_wait (t : nat) (pitem : option rvalue) (q : FIFOBuff_TS)
  : exec (option rvalue * FIFOBuff_TS) :=
  q0 <~ sem_wait RemSem q ;;
  q1 <~ pthread_mutex_lock t q0 ;;
  r <~ on_fifo (Ring.remove pitem (fifo q1)) ;;
  q2 <~ pthread_mutex_unlock t (set_fifo (snd r) q1) ;;
  q3 <~ sem_post AddSem q2 ;;
  ret (snd (fst r), q3) [].

(** ** The methods, step by step, for threads that interleave

    A thread is either between calls or at one of the points inside a
    method where another thread can be scheduled. *)

Inductive pc : Type :=
| Ready
| AtLock (c : transfer)      (* permit taken; next: pthread_mutex_lock *)
| AtFifo (c : call)          (* mutex held; next: the call into [fifo] *)
| AtUnlock (c : call) (r : bool) (out : option rvalue)
                             (* next: pthread_mutex_unlock *)
| AtPost (c : transfer) (out : option rvalue).
                             (* next: sem_post, then return *)

Definition is_adding (c : transfer) : bool :=
  match c with CAdd _ | CAddWait _ => true | _ => false end.

(** The semaphore a call posts on its way out. *)
Definition posts (c : transfer) : sem :=
  if is_adding c then RemSem else AddSem.

(** The first statement of a method. *)
Definition invoke (t : nat) (c : call) (q : FIFOBuff_TS)
  : exec (pc * FIFOBuff_TS) :=
  match c with
  | Transfer (CAdd item) =>
      w <~ sem_trywait AddSem q ;;
      if fst w then ret (AtLock (CAdd item), snd w) []
      else ret (Ready, snd w) [Returned t c false None]
  | Transfer (CAddWait item) =>
      q0 <~ sem_wait AddSem q ;; ret (AtLock (CAddWait item), q0) []
  | Transfer (CRemove pitem) =>
      w <~ sem_trywait RemSem q ;;
      if fst w then ret (AtLock (CRemove pitem), snd w) []
      else ret (Ready, snd w) [Returned t c false pitem]
  | Transfer (CRemoveWait pitem) =>
      q0 <~ sem_wait RemSem q ;; ret (AtLock (CRemoveWait pitem), q0) []
  | CPeek _ =>
      q1 <~ pthread_mutex_lock t q ;; ret (AtFifo c, q1) []
  end.

(** The next statement of a method that is under way. *)
Definition advance (t : nat) (p : pc) (q : FIFOBuff_TS)
  : exec (pc * FIFOBuff_TS) :=
  match p with
  | Ready => None
  | AtLock c =>
      q1 <~ pthread_mutex_lock t q ;; ret (AtFifo (Transfer c), q1) []
  | AtFifo c =>
      match c with
      | Transfer (CAdd item) | Transfer (CAddWait item) =>
          r <~ on_fifo (Ring.add item (fifo q)) ;;
          ret (AtUnlock c true None, set_fifo (snd r) q) []
      | Transfer (CRemove pitem) | Transfer (CRemoveWait pitem) =>
          r <~ on_fifo (Ring.remove pitem (fifo q)) ;;
          ret (AtUnlock c true (snd (fst r)), set_fifo (snd r) q) []
      | CPeek cur =>
          r <~ peek_locked (Some cur) q ;;
          ret (AtUnlock c (fst r) (snd r), q) []
      end
  | AtUnlock c r out =>
      q2 <~ pthread_mutex_unlock t q ;;
      match c with
      | Transfer c' => ret (AtPost c' out, q2) []
      | CPeek _ => ret (Ready, q2) [Returned t c r out]
      end
  | AtPost c out =>
      q3 <~ sem_post (posts c) q ;;
      ret (Ready, q3) [Returned t (Transfer c) true out]
  end.

Record machine : Type := mkMachine {
  queue : FIFOBuff_TS;
  threads : list pc
}.

(** What the scheduler can do: let a thread that is between calls enter a
    method, or let a thread inside a method run its next statement. *)
Inductive action : Type :=
| Invoke (t : nat) (c : call)
| Advance (t : nat).

Definition perform (a : action) (m : machine) : exec machine :=
  match a with
  | Invoke t c =>
      match threads m !! t with
      | Some Ready =>
          r <~ invoke t c (queue m) ;;
          ret {| queue := snd r; threads := <[t := fst r]> (threads m) |} []
      | _ => None
      end
  | Advance t =>
      match threads m !! t with
      | Some p =>
          r <~ advance t p (queue m) ;;
          ret {| queue := snd r; threads := <[t := fst r]> (threads m) |} []
      | None => None
      end
  end.

Fixpoint run_schedule (sched : list action) (m : machine) : exec machine :=
  match sched with
  | [] => ret m []
  | a :: sched' => m' <~ perform a m ;; run_schedule sched' m'
  end.

(** [n] threads around a queue, none of them inside a method. *)
Definition start (n : nat) (q : FIFOBuff_TS) : machine :=
  {| queue := q; threads := replicate n Ready |}.

Definition is_ready (p : pc) : bool :=
  match p with Ready => true | _ => false end.

(** No thread is inside a method. *)
Definition quiescent (m : machine) : bool := forallb is_ready (threads m).

(** The two counters of the state machine. *)
Definition free (m : machine) : Z := add_sem (queue m).
Definition filled (m : machine) : Z := rem_sem (queue m).

(** Calls that came back with success, read off the trace. *)
Definition successful_add (e : event) : bool :=
  match e with
  | Returned _ (Transfer c) true _ => is_adding c
  | _ => false
  end.

Definition successful_remove (e : event) : bool :=
  match e with
  | Returned _ (Transfer c) true _ => negb (is_adding c)
  | _ => false
  end.

Definition tally (f : event -> bool) (tr : list event) : Z :=
  foldr (fun e acc => (if f e then 1 else 0) + acc) 0 tr.

(** The schedule on which thread [t] runs one call, whose first statement
    did not send it back, from entry to return: [peek] has two statements
    left after the first, the other methods four. *)
Definition alone (t : nat) (c : call) : list action :=
  Invoke t c ::
  match c with
  | CPeek _ => [Advance t; Advance t]
  | Transfer _ => [Advance t; Advance t; Advance t; Advance t]
  end.

(** The machine [m] with thread [t] at [p] and the queue [q]. *)
Definition at_pc (m : machine) (t : nat) (p : pc) (q : FIFOBuff_TS)
  : machine :=
  {| queue := q; threads := <[t := p]> (threads m) |}.

(** ** Invariants of the machine *)

(** Units of capacity a thread holds while it is inside a method: a free
    unit between taking it from [add_sem] and filling the slot, or between
    emptying a slot and posting [add_sem]; a filled unit likewise. *)
Definition holds_free (p : pc) : Z :=
  match p with
  | AtLock c | AtFifo (Transfer c) => if is_adding c then 1 else 0
  | AtUnlock (Transfer c) _ _ | AtPost c _ => if is_adding c then 0 else 1
  | _ => 0
  end.

Definition holds_filled (p : pc) : Z :=
  match p with
  | AtLock c | AtFifo (Transfer c) => if is_adding c then 0 else 1
  | AtUnlock (Transfer c) _ _ | AtPost c _ => if is_adding c then 1 else 0
  | _ => 0
  end.

(** Transfers done on the buffer whose call has not returned yet. *)
Definition unreturned (p : pc) : Z :=
  match p with
  | AtUnlock (Transfer c) _ _ | AtPost c _ => if is_adding c then 1 else -1
  | _ => 0
  end.

Definition sum_over (w : pc -> Z) (ps : list pc) : Z :=
  foldr (fun p acc => w p + acc) 0 ps.

(** The statements between lock and unlock. *)
Definition in_critical (p : pc) : bool :=
  match p with AtFifo _ | AtUnlock _ _ _ => true | _ => false end.

(** The mutex is held by thread [t] exactly when [t] is between its lock
    and its unlock. *)
Definition mutex_ok (o : option nat) (ps : list pc) : Prop :=
  forall t : nat,
    o = Some t <-> exists p, ps !! t = Some p /\ in_critical p = true.

(** [inv cap m tr]: the state [m] of a machine around a queue of capacity
    [cap], reached with trace [tr].  The permits of "TSQueue_AddSem" that
    are neither in the semaphore nor with a thread, together with the
    buffered elements, make up what [sem_open] read of the capacity. *)
Record inv (cap : Z) (m : machine) (tr : list event) : Prop := mkInv {
  inv_fifo : exists q : list T, Ring.repr (fifo (queue m)) q;
  inv_cap : Ring.fifo_cap (fifo (queue m)) = cap;
  inv_free :
    add_sem (queue m) + sum_over holds_free (threads m)
      + Ring.fifo_size (fifo (queue m)) = unsigned_int cap;
  inv_filled :
    rem_sem (queue m) + sum_over holds_filled (threads m)
      = Ring.fifo_size (fifo (queue m));
  inv_ledger :
    Ring.fifo_size (fifo (queue m))
      = tally successful_add tr - tally successful_remove tr
        + sum_over unreturned (threads m);
  inv_sems : 0 <= add_sem (queue m) /\ 0 <= rem_sem (queue m);
  inv_mutex : mutex_ok (mutex (queue m)) (threads m)
}.

(** ** Tearing the wrapper down *)

(** What [~FIFOBuff_TS()] does: its body, then the destructor of the member
    [fifo], whose storage events become [FifoDtor] events. *)
Inductive teardown : Type :=
| SemClose (s : sem)
| MutexDestroy
| FifoDtor (e : @Ring.event T).

(** [~FIFOBuff_TS()].  Destroying a mutex that is held has no defined
    behaviour. *)
Definition FIFOBuff_TS_dtor (fuel : nat) (q : FIFOBuff_TS)
  : option (outcome teardown (@Ring.remains T)) :=
  match mutex q with
  | Some _ => Some Fault
  | None =>
      match Ring.FIFOBuff_dtor fuel (fifo q) with
      | None => None
      | Some Fault => Some Fault
      | Some (Ret rest tr) =>
          Some (Ret rest ([SemClose AddSem; SemClose RemSem; MutexDestroy]
                          ++ map FifoDtor tr))
      end
  end.

End FIFOBuff_TS.
End TS.

(** * Properties of the ring buffer *)

Module RingFacts.
Import Ring.

Section Arithmetic.

Lemma size_t_wrap_small (z : Z) : is_size_t z -> size_t_wrap z = z.
Proof.
  unfold is_size_t, size_t_wrap. intros Hz.
  apply Z.mod_small. lia.
Qed.

(** Within one lap, reduction modulo the capacity is one conditional
    subtraction. *)
Lemma mod_window (h k c : Z) :
  0 <= h < c -> 0 <= k <= c ->
  (h + k) mod c = if h + k <? c then h + k else h + k - c.
Proof.
  intros Hh Hk. destruct (Z.ltb_spec (h + k) c) as [Hlt | Hge].
  - apply Z.mod_small. lia.
  - symmetry. apply (Z.mod_unique (h + k) c 1); lia.
Qed.

End Arithmetic.

Section Facts.

Context {T : Type}.

Implicit Types (b : @FIFOBuff T) (q : list T) (item v : T).
Implicit Types (pitem : option (@rvalue T)) (buf : list (@slot T)).

(** *** Shape of a well-formed buffer *)

Lemma wf_tail_range b :
  wf b -> 0 < fifo_cap b -> 0 <= tail b < fifo_cap b.
Proof.
  intros [] Hc. rewrite wf_tail0. apply Z.mod_pos_bound. lia.
Qed.

Lemma wf_head_range b :
  wf b -> 0 < fifo_cap b -> 0 <= head b < fifo_cap b.
Proof. intros [] Hc. lia. Qed.

Lemma wf_bounds b : wf b -> 0 < fifo_cap b -> bounds b.
Proof.
  intros Hwf Hc. unfold bounds.
  pose proof (wf_size _ Hwf). pose proof (wf_head_range _ Hwf Hc).
  pose proof (wf_tail_range _ Hwf Hc). lia.
Qed.

Lemma wf_slot b (i : Z) :
  wf b -> 0 <= i < fifo_cap b -> is_Some (buffer b !! Z.to_nat i).
Proof.
  intros [] Hi. apply lookup_lt_is_Some. lia.
Qed.

Lemma constructed_wf b : constructed b -> wf b.
Proof.
  intros [c Hc | buf c Hc Hlen]; unfold is_size_t in *.
  - constructor; simpl; unfold is_size_t; try lia.
    + rewrite length_replicate. lia.
    + now rewrite Zmod_0_l.
  - constructor; simpl; unfold is_size_t; try lia.
    now rewrite Zmod_0_l.
Qed.

Lemma constructed_repr b : constructed b -> repr b [].
Proof.
  intros Hb. split; [now apply constructed_wf |]. split.
  - destruct Hb; reflexivity.
  - intros k v Hk. discriminate.
Qed.

(** *** What the three methods compute on a well-formed buffer *)

Lemma add_accepts b item :
  wf b -> fifo_size b < fifo_cap b ->
  add item b =
    Ret (true,
         {| buffer := <[Z.to_nat (tail b) := Live item]> (buffer b);
            head := head b;
            tail := (tail b + 1) mod fifo_cap b;
            fifo_size := fifo_size b + 1;
            fifo_cap := fifo_cap b;
            free_mem := free_mem b |})
        [Construct (tail b) item].
Proof.
  intros Hwf Hlt. pose proof (wf_size _ Hwf) as Hs.
  pose proof (wf_cap _ Hwf) as Hc. unfold is_size_t in Hc.
  pose proof (wf_tail_range _ Hwf ltac:(lia)) as Ht.
  destruct (wf_slot b (tail b) Hwf Ht) as [s Hs'].
  unfold add, construct, umod.
  rewrite (proj2 (Z.ltb_lt _ _) Hlt), Hs'. cbn.
  destruct (Z.eqb_spec (fifo_cap b) 0) as [? | _]; [lia |].
  rewrite !size_t_wrap_small by (unfold is_size_t; lia).
  reflexivity.
Qed.

Lemma add_rejects b item :
  fifo_cap b <= fifo_size b -> add item b = Ret (false, b) [].
Proof.
  intros Hge. unfold add.
  destruct (Z.ltb_spec (fifo_size b) (fifo_cap b)); [lia | reflexivity].
Qed.

Lemma remove_rejects b pitem :
  fifo_size b = 0 -> remove pitem b = Ret (false, pitem, b) [].
Proof. intros H0. unfold remove. now rewrite H0. Qed.

Lemma peek_rejects b pitem :
  fifo_size b <= 0 -> peek pitem b = Ret (false, pitem) [].
Proof.
  intros H0. unfold peek.
  destruct (Z.ltb_spec 0 (fifo_size b)); [lia | reflexivity].
Qed.

Lemma remove_accepts b pitem (sh st : slot) :
  wf b -> 0 < fifo_size b ->
  buffer b !! Z.to_nat (head b) = Some sh ->
  buffer b !! Z.to_nat (tail b) = Some st ->
  remove pitem b =
    Ret (true,
         match pitem with Some _ => Some (slot_load sh) | None => None end,
         {| buffer := <[Z.to_nat (tail b) := slot_destruct st]> (buffer b);
            head := (head b + 1) mod fifo_cap b;
            tail := tail b;
            fifo_size := fifo_size b - 1;
            fifo_cap := fifo_cap b;
            free_mem := free_mem b |})
        (copy_out pitem (head b) ++ [Destruct (tail b) st]).
Proof.
  intros Hwf Hpos Hh Ht. pose proof (wf_size _ Hwf) as Hs.
  pose proof (wf_cap _ Hwf) as Hc. unfold is_size_t in Hc.
  pose proof (wf_head_range _ Hwf ltac:(lia)) as Hhr.
  unfold remove, load, destruct_at, umod.
  destruct (Z.eqb_spec (fifo_size b) 0) as [? | _]; [lia |].
  rewrite Hh, Ht.
  destruct (Z.eqb_spec (fifo_cap b) 0) as [? | _]; [lia |].
  rewrite !size_t_wrap_small by (unfold is_size_t; lia).
  destruct pitem; reflexivity.
Qed.

Lemma peek_accepts b (cur : rvalue) (st : slot) :
  0 < fifo_size b ->
  buffer b !! Z.to_nat (tail b) = Some st ->
  peek (Some cur) b = Ret (true, Some (slot_load st)) [Load (tail b)].
Proof.
  intros Hpos Ht. unfold peek, load.
  rewrite (proj2 (Z.ltb_lt _ _) Hpos), Ht. reflexivity.
Qed.

(** *** The window of live objects *)

Lemma window_distinct (h c : Z) (j k : Z) :
  0 <= h < c -> 0 <= j < k -> k <= c -> k - j < c ->
  Z.to_nat ((h + j) mod c) <> Z.to_nat ((h + k) mod c).
Proof.
  intros Hh Hj Hk Hd.
  rewrite !mod_window by lia.
  destruct (Z.ltb_spec (h + j) c), (Z.ltb_spec (h + k) c); lia.
Qed.

Lemma nth_index_0 b :
  wf b -> 0 < fifo_cap b -> nth_index b 0 = Z.to_nat (head b).
Proof.
  intros Hwf Hc. unfold nth_index. simpl. rewrite Z.add_0_r.
  rewrite Z.mod_small; [reflexivity |]. now apply wf_head_range.
Qed.

Lemma add_repr b q item :
  repr b q -> fifo_size b < fifo_cap b ->
  exists b',
    add item b = Ret (true, b') [Construct (tail b) item] /\
    repr b' (q ++ [item]) /\ fifo_cap b' = fifo_cap b.
Proof.
  intros (Hwf & Hlen & Hwin) Hlt.
  pose proof (wf_size _ Hwf) as Hs.
  pose proof (wf_head_range _ Hwf ltac:(lia)) as Hh.
  pose proof (wf_tail_range _ Hwf ltac:(lia)) as Ht.
  eexists. split; [now apply add_accepts |]. split; [| reflexivity].
  split; [| split].
  - destruct Hwf. constructor; cbn; try assumption; try lia.
    + rewrite length_insert. assumption.
    + rewrite wf_tail0, Z.add_mod_idemp_l by lia.
      f_equal. lia.
  - cbn. rewrite length_app. cbn. lia.
  - intros k v Hk. unfold nth_index. cbn [buffer head fifo_cap].
    destruct (decide (k < length q)%nat) as [Hkq | Hkq].
    + rewrite lookup_app_l in Hk by assumption.
      rewrite list_lookup_insert_ne; [now apply Hwin |].
      rewrite (wf_tail _ Hwf), Hlen. intros Heq.
      apply (window_distinct (head b) (fifo_cap b) (Z.of_nat k)
               (Z.of_nat (length q))); first [lia | now symmetry].
    + apply lookup_lt_Some in Hk as Hk'. rewrite length_app in Hk'.
      cbn in Hk'. assert (k = length q) as -> by lia.
      rewrite lookup_app_r, Nat.sub_diag in Hk by lia.
      cbn in Hk. injection Hk as <-.
      rewrite <- Hlen, <- (wf_tail _ Hwf).
      apply list_lookup_insert_eq.
      pose proof (wf_mem _ Hwf). lia.
Qed.

Lemma repr_head_live b v q :
  repr b (v :: q) -> buffer b !! Z.to_nat (head b) = Some (Live v).
Proof.
  intros (Hwf & Hlen & Hwin). cbn in Hlen.
  pose proof (wf_size _ Hwf).
  rewrite <- nth_index_0 by (assumption || lia).
  now apply Hwin.
Qed.

Lemma remove_repr b v q pitem :
  repr b (v :: q) ->
  exists b' st,
    buffer b !! Z.to_nat (tail b) = Some st /\
    remove pitem b =
      Ret (true, deliver pitem v, b')
          (copy_out pitem (head b) ++ [Destruct (tail b) st]) /\
    repr b' q /\ fifo_cap b' = fifo_cap b.
Proof.
  intros Hrepr. pose proof (repr_head_live _ _ _ Hrepr) as Hhd.
  destruct Hrepr as (Hwf & Hlen & Hwin). cbn [length] in Hlen.
  pose proof (wf_size _ Hwf) as Hs.
  pose proof (wf_head_range _ Hwf ltac:(lia)) as Hh.
  pose proof (wf_tail_range _ Hwf ltac:(lia)) as Ht.
  destruct (wf_slot b (tail b) Hwf Ht) as [st Hst].
  eexists _, st. split; [assumption |]. split.
  { rewrite (remove_accepts b pitem (Live v) st) by (assumption || lia).
    destruct pitem; reflexivity. }
  split; [| reflexivity]. split; [| split].
  - destruct Hwf. constructor; cbn; try assumption; try lia.
    + rewrite length_insert. assumption.
    + pose proof (Z.mod_pos_bound (head b + 1) (fifo_cap b)). lia.
    + rewrite wf_tail0, Z.add_mod_idemp_l by lia. f_equal. lia.
  - cbn. lia.
  - intros k v' Hk. unfold nth_index. cbn [buffer head fifo_cap].
    apply lookup_lt_Some in Hk as Hk'.
    rewrite Z.add_mod_idemp_l by lia.
    replace (head b + 1 + Z.of_nat k) with (head b + Z.of_nat (S k)) by lia.
    rewrite list_lookup_insert_ne; [now apply (Hwin (S k)) |].
    rewrite (wf_tail _ Hwf). intros Heq.
    apply (window_distinct (head b) (fifo_cap b) (Z.of_nat (S k))
             (fifo_size b)); first [lia | now symmetry].
Qed.

(** *** Sequences of calls *)

Lemma run_cons (o : op) (ops : list op) b b1 b'
    (r : result) (rs : list result) (tr1 tr2 : list event) :
  step o b = Ret (r, b1) tr1 ->
  run ops b1 = Ret (rs, b') tr2 ->
  run (o :: ops) b = Ret (r :: rs, b') (tr1 ++ tr2).
Proof.
  intros Hs Hr. cbn [run]. rewrite Hs. cbn. rewrite Hr. cbn.
  now rewrite app_nil_r.
Qed.

Lemma instance_count_app (tr1 tr2 : list (@event T)) :
  instance_count (tr1 ++ tr2) = instance_count tr1 + instance_count tr2.
Proof.
  unfold instance_count. induction tr1 as [| e tr1 IH]; cbn; [lia |].
  rewrite IH. lia.
Qed.

Lemma instance_count_copy_out pitem (i : Z) :
  instance_count (copy_out pitem i) = 0.
Proof. destruct pitem; reflexivity. Qed.

(** One call on a buffer that represents [q]: the call returns, the buffer
    represents the queue [q'] that a list-based FIFO would hold, and an [add]
    or [remove] fails exactly when that queue is full or empty. *)
Lemma step_repr (o : op) b q :
  repr b q ->
  exists (r : result) b' (tr : list event) (q' : list T),
    step o b = Ret (r, b') tr /\
    repr b' q' /\
    fifo_cap b' = fifo_cap b /\
    instance_count tr = Z.of_nat (length q') - Z.of_nat (length q) /\
    match o with
    | Add item =>
        if ok r then q' = q ++ [item] else q' = q
    | Remove pitem =>
        if ok r then exists v, q = v :: q' /\ snd r = deliver pitem v
        else q = [] /\ q' = []
    | Peek _ => q' = q
    end.
Proof.
  intros Hrepr. destruct o as [item | pitem | cur].
  - destruct (Z.ltb_spec (fifo_size b) (fifo_cap b)) as [Hlt | Hge].
    + destruct (add_repr b q item Hrepr Hlt) as (b' & Hadd & Hrepr' & Hcap).
      exists (true, None), b', [Construct (tail b) item], (q ++ [item]).
      cbn [step]. rewrite Hadd. cbn.
      repeat split; try assumption; try apply Hrepr'.
      rewrite length_app. cbn. lia.
    + exists (false, None), b, [], q.
      cbn [step]. rewrite add_rejects by assumption. cbn.
      repeat split; try apply Hrepr. lia.
  - destruct q as [| v q].
    + exists (false, pitem), b, [], [].
      cbn [step]. rewrite remove_rejects by apply Hrepr. cbn.
      repeat split; apply Hrepr.
    + destruct (remove_repr b v q pitem Hrepr)
        as (b' & st & Hst & Hrem & Hrepr' & Hcap).
      exists (true, deliver pitem v), b',
        (copy_out pitem (head b) ++ [Destruct (tail b) st]), q.
      cbn [step]. rewrite Hrem. cbn. rewrite app_nil_r.
      repeat split; try assumption; try apply Hrepr'.
      * rewrite instance_count_app, instance_count_copy_out. cbn. lia.
      * exists v. split; reflexivity.
  - pose proof Hrepr as (Hwf & Hlen & Hwin).
    destruct (Z.ltb_spec 0 (fifo_size b)) as [Hpos | Hle].
    + pose proof (wf_size _ Hwf) as Hs.
      pose proof (wf_tail_range _ Hwf ltac:(lia)) as Ht.
      destruct (wf_slot b (tail b) Hwf Ht) as [st Hst].
      exists (true, Some (slot_load st)), b, [Load (tail b)], q.
      cbn [step]. rewrite (peek_accepts b cur st) by assumption. cbn.
      split; [reflexivity |]. split; [assumption |].
      split; [reflexivity |]. split; [lia | reflexivity].
    + exists (false, Some cur), b, [], q.
      cbn [step]. rewrite peek_rejects by assumption. cbn.
      split; [reflexivity |]. split; [assumption |].
      split; [reflexivity |]. split; [lia | reflexivity].
Qed.

(** The queue a list-based FIFO holds after the accepted calls of [ops]. *)
Lemma run_repr (ops : list op) :
  forall b q,
    repr b q ->
    exists (rs : list result) b' (tr : list event) (q' : list T),
      run ops b = Ret (rs, b') tr /\
      repr b' q' /\
      fifo_cap b' = fifo_cap b /\
      instance_count tr = Z.of_nat (length q') - Z.of_nat (length q) /\
      (all_accepted ops rs = true ->
       removed ops rs = zip_with deliver (remove_ptrs ops) (q ++ added ops)).
Proof.
  induction ops as [| o ops IH]; intros b q Hrepr.
  - exists [], b, [], q. cbn.
    split; [reflexivity |]. split; [assumption |].
    split; [reflexivity |]. split; [lia |]. intros _. reflexivity.
  - destruct (step_repr o b q Hrepr)
      as (r & b1 & tr1 & q1 & Hstep & Hrepr1 & Hcap1 & Hcnt1 & Hrel).
    destruct (IH b1 q1 Hrepr1)
      as (rs & b' & tr2 & q' & Hrun & Hrepr' & Hcap' & Hcnt' & Hfifo).
    exists (r :: rs), b', (tr1 ++ tr2), q'.
    split; [now apply (run_cons o ops b b1) |].
    split; [assumption |]. split; [congruence |].
    split; [rewrite instance_count_app; lia |].
    destruct o as [item | pitem | cur];
      cbn [all_accepted removed added remove_ptrs].
    + intros Hacc. apply andb_prop in Hacc as [Hok Hacc].
      rewrite Hok in Hrel. subst q1.
      rewrite Hfifo by assumption. now rewrite <- app_assoc.
    + intros Hacc. apply andb_prop in Hacc as [Hok Hacc].
      rewrite Hok in Hrel. destruct Hrel as (v & -> & Hout).
      rewrite Hfifo by assumption. cbn. now rewrite Hout.
    + intros Hacc. subst q1. now apply Hfifo.
Qed.

Lemma reachable_repr b : reachable b -> exists q, repr b q.
Proof.
  intros (init & ops & rs & tr & Hinit & Hrun).
  destruct (run_repr ops init [] (constructed_repr _ Hinit))
    as (rs' & b' & tr' & q' & Hrun' & Hrepr' & _).
  rewrite Hrun in Hrun'. injection Hrun' as _ <- _. now exists q'.
Qed.

Lemma reachable_wf b : reachable b -> wf b.
Proof. intros Hb. destruct (reachable_repr b Hb) as (q & Hq). apply Hq. Qed.

(** The two transfers as the wrapper sees them: whether they are accepted,
    and what they do to [fifo_size]. *)
Lemma add_size b q item :
  repr b q -> fifo_size b < fifo_cap b ->
  exists b' (tr : list event),
    add item b = Ret (true, b') tr /\
    (exists q', repr b' q') /\
    fifo_cap b' = fifo_cap b /\
    fifo_size b' = fifo_size b + 1.
Proof.
  intros Hrepr Hlt.
  destruct (add_repr b q item Hrepr Hlt) as (b' & Hadd & Hrepr' & Hcap).
  exists b', [Construct (tail b) item].
  split; [assumption |]. split; [now exists (q ++ [item]) |].
  split; [assumption |].
  destruct Hrepr as (_ & Hlen & _). destruct Hrepr' as (_ & Hlen' & _).
  rewrite length_app in Hlen'. cbn in Hlen'. lia.
Qed.

Lemma remove_size b q pitem :
  repr b q -> 0 < fifo_size b ->
  exists (out : option rvalue) b' (tr : list event),
    remove pitem b = Ret (true, out, b') tr /\
    (exists q', repr b' q') /\
    fifo_cap b' = fifo_cap b /\
    fifo_size b' = fifo_size b - 1.
Proof.
  intros Hrepr Hpos. destruct q as [| v q].
  { destruct Hrepr as (_ & Hlen & _). cbn in Hlen. lia. }
  destruct (remove_repr b v q pitem Hrepr)
    as (b' & st & _ & Hrem & Hrepr' & Hcap).
  eexists _, b', _. split; [exact Hrem |]. split; [now exists q |].
  split; [assumption |].
  destruct Hrepr as (_ & Hlen & _). destruct Hrepr' as (_ & Hlen' & _).
  cbn [length] in Hlen. lia.
Qed.

Lemma peek_returns b q (cur : rvalue) :
  repr b q ->
  exists (r : bool) (out : option rvalue) (tr : list event),
    peek (Some cur) b = Ret (r, out) tr.
Proof.
  intros (Hwf & _). destruct (Z.ltb_spec 0 (fifo_size b)) as [Hpos | Hle].
  - pose proof (wf_size _ Hwf) as Hs.
    pose proof (wf_tail_range _ Hwf ltac:(lia)) as Ht.
    destruct (wf_slot b (tail b) Hwf Ht) as [st Hst].
    eexists _, _, _. now apply (peek_accepts b cur st).
  - eexists _, _, _. now apply peek_rejects.
Qed.

(** *** Totality *)

Lemma run_total (ops : list op) b :
  reachable b \/ constructed b ->
  exists (rs : list result) b' (tr : list event), run ops b = Ret (rs, b') tr.
Proof.
  intros Hb.
  assert (exists q, repr b q) as (q & Hq).
  { destruct Hb as [Hb | Hb]; [now apply reachable_repr |].
    exists []. now apply constructed_repr. }
  destruct (run_repr ops b q Hq) as (rs & b' & tr & _ & Hrun & _).
  now exists rs, b', tr.
Qed.

(** The loop of the destructor ends after [fifo_size] rounds, with one
    destructor call per round. *)
Lemma dtor_loop_total (n : nat) :
  forall b,
    wf b -> fifo_size b = Z.of_nat n ->
    exists b' (tr : list event),
      dtor_loop n b = Some (Ret b' tr) /\
      fifo_size b' = 0 /\
      length (buffer b') = length (buffer b) /\
      instance_count tr = - fifo_size b.
Proof.
  induction n as [| n IH]; intros b Hwf Hn.
  - exists b, []. cbn. rewrite Hn. cbn. repeat split; lia.
  - pose proof (wf_size _ Hwf) as Hs.
    pose proof (wf_cap _ Hwf) as Hc. unfold is_size_t in Hc.
    pose proof (wf_head_range _ Hwf ltac:(lia)) as Hh.
    destruct (wf_slot b (head b) Hwf Hh) as [sh Hsh].
    cbn [dtor_loop]. unfold destruct_at, umod.
    destruct (Z.ltb_spec 0 (fifo_size b)) as [_ | ?]; [| lia].
    rewrite Hsh.
    destruct (Z.eqb_spec (fifo_cap b) 0) as [? | _]; [lia |].
    rewrite !size_t_wrap_small by (unfold is_size_t; lia). cbn.
    match goal with
    | |- context [dtor_loop n ?b1] =>
        destruct (IH b1) as (b' & tr & Hloop & Hz & Hlen & Hcnt)
    end.
    + destruct Hwf. constructor; cbn; try assumption; try lia.
      * rewrite length_insert. assumption.
      * pose proof (Z.mod_pos_bound (head b + 1) (fifo_cap b)). lia.
      * rewrite wf_tail0, Z.add_mod_idemp_l by lia. f_equal. lia.
    + cbn. lia.
    + rewrite Hloop. exists b', (Destruct (head b) sh :: tr).
      cbn in Hlen, Hcnt. rewrite length_insert in Hlen.
      repeat split; try assumption.
      unfold instance_count in *. cbn. lia.
Qed.

(** *** The empty buffer of capacity zero *)

Lemma run_rejects_all (ops : list op) b :
  fifo_size b = 0 -> fifo_cap b = 0 ->
  run ops b = Ret (map untouched ops, b) [].
Proof.
  intros Hs Hc. induction ops as [| o ops IH]; [reflexivity |].
  cbn [map]. change (@nil (@event T)) with (@nil (@event T) ++ []).
  apply (run_cons o ops b b b); [| assumption].
  destruct o as [item | pitem | cur]; cbn [step untouched].
  - rewrite add_rejects by lia. reflexivity.
  - rewrite remove_rejects by assumption. reflexivity.
  - rewrite peek_rejects by lia. reflexivity.
Qed.

(** A sequence that neither overruns nor underruns the queue runs to its
    end with every [add] and [remove] accepted, and its [remove] calls take
    out the queued items followed by the added ones, in that order. *)
Lemma run_never_overrun (ops : list op) :
  forall b q,
    repr b q ->
    never_overrun (fifo_cap b) (Z.of_nat (length q)) ops = true ->
    exists (rs : list result) b' (tr : list event),
      run ops b = Ret (rs, b') tr /\
      all_accepted ops rs = true /\
      removed ops rs = zip_with deliver (remove_ptrs ops) (q ++ added ops).
Proof.
  induction ops as [| o ops IH]; intros b q Hrepr Hpace.
  - exists [], b, []. cbn. split; [reflexivity |]. split; reflexivity.
  - destruct o as [item | pitem | cur]; cbn [never_overrun] in Hpace.
    + apply andb_prop in Hpace as [Hroom Hpace].
      apply Z.ltb_lt in Hroom.
      destruct Hrepr as (Hwf & Hlen & Hwin).
      destruct (add_repr b q item (conj Hwf (conj Hlen Hwin)))
        as (b1 & Hadd & Hrepr1 & Hcap1); [lia |].
      destruct (IH b1 (q ++ [item]) Hrepr1)
        as (rs & b' & tr & Hrun & Hacc & Hout).
      { rewrite Hcap1, length_app, Nat2Z.inj_add. exact Hpace. }
      exists ((true, None) :: rs), b', ([Construct (tail b) item] ++ tr).
      split; [| split].
      * apply (run_cons (Add item) ops b b1 b'); [| exact Hrun].
        cbn [step]. rewrite Hadd. reflexivity.
      * cbn. exact Hacc.
      * cbn [removed remove_ptrs added]. rewrite Hout, <- app_assoc.
        reflexivity.
    + apply andb_prop in Hpace as [Hsome Hpace].
      apply Z.ltb_lt in Hsome.
      destruct q as [| v q]; [cbn in Hsome; lia |].
      destruct (remove_repr b v q pitem Hrepr)
        as (b1 & st & _ & Hrem & Hrepr1 & Hcap1).
      destruct (IH b1 q Hrepr1) as (rs & b' & tr & Hrun & Hacc & Hout).
      { rewrite Hcap1. cbn [length] in Hpace.
        now replace (Z.of_nat (length q))
          with (Z.of_nat (S (length q)) - 1) by lia. }
      exists ((true, deliver pitem v) :: rs), b',
        ((copy_out pitem (head b) ++ [Destruct (tail b) st]) ++ tr).
      split; [| split].
      * apply (run_cons (Remove pitem) ops b b1 b'); [| exact Hrun].
        cbn [step]. rewrite Hrem. cbn. now rewrite app_nil_r.
      * cbn. exact Hacc.
      * cbn [removed remove_ptrs added snd app zip_with]. now rewrite Hout.
    + destruct (peek_returns b q cur Hrepr) as (r & out & tr1 & Hpeek).
      destruct (IH b q Hrepr Hpace) as (rs & b' & tr & Hrun & Hacc & Hout).
      exists ((r, out) :: rs), b', (tr1 ++ tr).
      split; [| split].
      * apply (run_cons (Peek cur) ops b b b'); [| exact Hrun].
        cbn [step]. rewrite Hpeek. cbn. now rewrite app_nil_r.
      * cbn. exact Hacc.
      * cbn [removed remove_ptrs added]. exact Hout.
Qed.

(** * The claims about the ring buffer *)

(** C4.  From a freshly constructed buffer, take any sequence of calls in
    which no [add] comes while as many elements are queued as the capacity
    allows and no [remove] while none is queued, a condition on the
    sequence alone ([never_overrun]).  The sequence runs to its end without
    fault, every [add] and every [remove] of it returns [true], and the
    i-th [remove] takes out the item of the i-th [add]: it leaves
    [Val item] in the caller's variable when [pitem] is not null.  The
    statement holds for every capacity and every length of the sequence, so
    also when the indices wrap around. *)
Theorem fifo_order (init : @FIFOBuff T) (ops : list op) :
  constructed init ->
  never_overrun (capacity init) 0 ops = true ->
  exists (rs : list result) b (tr : list event),
    run ops init = Ret (rs, b) tr /\
    all_accepted ops rs = true /\
    removed ops rs = zip_with deliver (remove_ptrs ops) (added ops).
Proof.
  intros Hinit Hpace.
  apply (run_never_overrun ops init [] (constructed_repr _ Hinit)).
  exact Hpace.
Qed.

(** C5.  [add] on a full buffer, and [remove] and [peek] on an empty one,
    return [false], hand back the buffer (and the caller's variable) as they
    were, touch no storage and do not fault. *)
Theorem rejected_calls_change_nothing b item pitem :
  (fifo_size b = fifo_cap b -> add item b = Ret (false, b) []) /\
  (fifo_size b = 0 ->
   remove pitem b = Ret (false, pitem, b) [] /\
   peek pitem b = Ret (false, pitem) []).
Proof.
  split.
  - intros Hfull. apply add_rejects. lia.
  - intros Hempty. split.
    + now apply remove_rejects.
    + apply peek_rejects. lia.
Qed.

(** C6.  A buffer constructed with a positive capacity answers every
    sequence of calls, and after it the counters are in range:
    [0 <= fifo_size <= fifo_cap], [head] and [tail] in [[0, fifo_cap)],
    with [fifo_cap] as the constructor set it. *)
Theorem counters_stay_in_range (init : @FIFOBuff T) (ops : list op) :
  constructed init ->
  0 < fifo_cap init ->
  exists (rs : list result) b (tr : list event),
    run ops init = Ret (rs, b) tr /\
    bounds b /\
    fifo_cap b = fifo_cap init.
Proof.
  intros Hinit Hpos.
  destruct (run_repr ops init [] (constructed_repr _ Hinit))
    as (rs & b & tr & q & Hrun & Hrepr & Hcap & _).
  exists rs, b, tr. split; [assumption |]. split; [| assumption].
  apply wf_bounds; [apply Hrepr | lia].
Qed.

(** C9.  On a buffer constructed with capacity zero every call of every
    sequence returns [false] and leaves the caller's variable alone; the
    buffer never changes, no call faults (so none evaluates
    [% fifo_cap]), and the trace of storage events is empty. *)
Theorem zero_capacity_rejects_everything (init : @FIFOBuff T) (ops : list op) :
  constructed init ->
  fifo_cap init = 0 ->
  run ops init = Ret (map untouched ops, init) [].
Proof.
  intros Hinit Hcap. apply run_rejects_all; [| assumption].
  destruct Hinit; reflexivity.
Qed.

(** C10.  On an empty buffer of positive capacity, [add(x)] succeeds and the
    [remove(pitem)] that follows succeeds, leaves [x] in [*pitem], and
    leaves the buffer empty. *)
Theorem add_then_remove b (x : T) (cur : rvalue) :
  reachable b ->
  fifo_size b = 0 ->
  0 < fifo_cap b ->
  exists b1 (tr1 : list event) b2 (tr2 : list event),
    add x b = Ret (true, b1) tr1 /\
    remove (Some cur) b1 = Ret (true, Some (Val x), b2) tr2 /\
    fifo_size b2 = 0.
Proof.
  intros Hb Hempty Hpos.
  destruct (reachable_repr b Hb) as (q & Hq).
  assert (q = []) as ->.
  { destruct Hq as (_ & Hlen & _). destruct q; [reflexivity |].
    cbn in Hlen. lia. }
  destruct (add_repr b [] x Hq ltac:(lia)) as (b1 & Hadd & Hq1 & _).
  destruct (remove_repr b1 x [] (Some cur) Hq1)
    as (b2 & st & _ & Hrem & Hq2 & _).
  eexists b1, _, b2, _. split; [exact Hadd |]. split; [exact Hrem |].
  apply Hq2.
Qed.

(** When the buffer is not full, [remove] takes the oldest element out of
    the window but leaves its object alive: the destructor ran on the slot
    at [tail], which lies outside the window. *)
Lemma remove_leaves_object_alive b v q pitem :
  repr b (v :: q) ->
  fifo_size b < fifo_cap b ->
  exists (out : option rvalue) b' (tr : list event),
    remove pitem b = Ret (true, out, b') tr /\
    buffer b' !! Z.to_nat (head b) = Some (Live v) /\
    fifo_size b' = fifo_size b - 1.
Proof.
  intros Hrepr Hlt. pose proof (repr_head_live _ _ _ Hrepr) as Hhd.
  destruct Hrepr as (Hwf & Hlen & Hwin). cbn [length] in Hlen.
  pose proof (wf_size _ Hwf) as Hs.
  pose proof (wf_head_range _ Hwf ltac:(lia)) as Hh.
  pose proof (wf_tail_range _ Hwf ltac:(lia)) as Ht.
  destruct (wf_slot b (tail b) Hwf Ht) as [st Hst].
  eexists _, _, _.
  split; [apply (remove_accepts b pitem (Live v) st); assumption || lia |].
  cbn. split; [| reflexivity].
  rewrite list_lookup_insert_ne; [assumption |].
  rewrite (wf_tail _ Hwf). intros Heq.
  apply (window_distinct (head b) (fifo_cap b) 0 (fifo_size b));
    try lia.
  rewrite Z.add_0_r, (Z.mod_small (head b)) by lia. now symmetry.
Qed.

(** On a full buffer [tail] and [head] coincide, and there [remove] and
    [peek] do address the oldest element. *)
Lemma full_tail_is_head b :
  wf b -> 0 < fifo_cap b -> fifo_size b = fifo_cap b -> tail b = head b.
Proof.
  intros Hwf Hpos Hfull.
  pose proof (wf_head_range _ Hwf Hpos) as Hh.
  rewrite (wf_tail _ Hwf), Hfull, mod_window by lia.
  destruct (Z.ltb_spec (head b + fifo_cap b) (fifo_cap b)); lia.
Qed.

(** X6.  The counter of an instance-counting element type does not see
    the leak: over the life of any buffer, from construction through any
    sequence of calls to its destructor, constructor and destructor calls
    balance, because every accepted [remove] makes one destructor call,
    whatever slot it hits.  The destructor returns with fuel for [size()]
    rounds. *)
Lemma instance_count_balanced (init : @FIFOBuff T) (ops : list op) :
  constructed init ->
  exists (rs : list result) b (tr : list event) (rest : remains)
         (tr' : list event),
    run ops init = Ret (rs, b) tr /\
    FIFOBuff_dtor (Z.to_nat (fifo_size b)) b = Some (Ret rest tr') /\
    instance_count (tr ++ tr') = 0.
Proof.
  intros Hinit.
  destruct (run_repr ops init [] (constructed_repr _ Hinit))
    as (rs & b & tr & q & Hrun & Hrepr & _ & Hcnt & _).
  destruct Hrepr as (Hwf & Hlen & _).
  destruct (dtor_loop_total (Z.to_nat (fifo_size b)) b Hwf)
    as (b' & tr' & Hloop & _ & _ & Hcnt').
  { pose proof (wf_size _ Hwf). lia. }
  exists rs, b, tr, {| memory := buffer b'; released := free_mem b' |},
    (tr' ++ []).
  split; [assumption |]. split.
  - unfold FIFOBuff_dtor. rewrite Hloop. reflexivity.
  - rewrite app_nil_r, instance_count_app. cbn in Hcnt. lia.
Qed.

(** * Further properties of the ring buffer *)

(** *** The buffer against a bounded queue of values *)

Lemma step_model (o : op) b q :
  repr b q ->
  exists (r : result) b' (tr : list event),
    step o b = Ret (r, b') tr /\
    forget_peeked o r = fst (model_step (fifo_cap b) o q) /\
    repr b' (snd (model_step (fifo_cap b) o q)) /\
    fifo_cap b' = fifo_cap b.
Proof.
  intros Hrepr. pose proof Hrepr as (Hwf & Hlen & Hwin).
  destruct o as [item | pitem | cur]; cbn [model_step forget_peeked].
  - rewrite <- Hlen.
    destruct (Z.ltb_spec (fifo_size b) (fifo_cap b)) as [Hlt | Hge].
    + destruct (add_repr b q item Hrepr Hlt) as (b' & Hadd & Hrepr' & Hcap).
      exists (true, None), b', [Construct (tail b) item].
      cbn [step]. rewrite Hadd. cbn. conjuncts.
    + exists (false, None), b, [].
      cbn [step]. rewrite add_rejects by assumption. cbn.
      conjuncts.
  - destruct q as [| v q].
    + exists (false, pitem), b, [].
      cbn [step]. rewrite remove_rejects by assumption. cbn.
      conjuncts.
    + destruct (remove_repr b v q pitem Hrepr)
        as (b' & st & Hst & Hrem & Hrepr' & Hcap).
      exists (true, deliver pitem v), b',
        (copy_out pitem (head b) ++ [Destruct (tail b) st]).
      cbn [step]. rewrite Hrem. cbn. rewrite app_nil_r. conjuncts.
  - destruct (Z.ltb_spec 0 (fifo_size b)) as [Hpos | Hle].
    + pose proof (wf_size _ Hwf) as Hs.
      pose proof (wf_tail_range _ Hwf ltac:(lia)) as Ht.
      destruct (wf_slot b (tail b) Hwf Ht) as [st Hst].
      exists (true, Some (slot_load st)), b, [Load (tail b)].
      cbn [step]. rewrite (peek_accepts b cur st) by assumption. cbn.
      split; [reflexivity |].
      destruct q as [| v q]; [cbn in Hlen; lia |]. conjuncts.
    + exists (false, Some cur), b, [].
      cbn [step]. rewrite peek_rejects by assumption. cbn.
      split; [reflexivity |].
      destruct q as [| v q]; [| cbn [length] in Hlen; lia].
      conjuncts.
Qed.

Lemma run_model (ops : list op) :
  forall b q,
    repr b q ->
    exists (rs : list result) b' (tr : list event),
      run ops b = Ret (rs, b') tr /\
      forget_all_peeked ops rs = fst (model_run (fifo_cap b) ops q) /\
      repr b' (snd (model_run (fifo_cap b) ops q)) /\
      fifo_cap b' = fifo_cap b.
Proof.
  induction ops as [| o ops IH]; intros b q Hrepr.
  - exists [], b, []. cbn. conjuncts.
  - destruct (step_model o b q Hrepr)
      as (r & b1 & tr1 & Hstep & Hres & Hrepr1 & Hcap1).
    destruct (IH b1 _ Hrepr1) as (rs & b' & tr2 & Hrun & Hrs & Hrepr' & Hcap').
    rewrite Hcap1 in Hrs, Hrepr'.
    exists (r :: rs), b', (tr1 ++ tr2).
    split; [now apply (run_cons o ops b b1) |].
    cbn [forget_all_peeked model_run fst snd].
    split; [now rewrite Hres, Hrs |]. split; [assumption | congruence].
Qed.

(** X1.  Whatever the sequence of calls on a freshly constructed buffer,
    every [add] and [remove] answers as a queue of at most [fifo_cap] values
    would (the boolean and the value left in [*pitem]), every [peek] returns
    the boolean such a queue would, and the window of the buffer then holds
    exactly the values of that queue, oldest at [head]. *)
Theorem refines_bounded_queue (init : @FIFOBuff T) (ops : list op)
    (rs : list result) b (tr : list event) :
  constructed init ->
  run ops init = Ret (rs, b) tr ->
  forget_all_peeked ops rs = fst (model_run (fifo_cap init) ops []) /\
  repr b (snd (model_run (fifo_cap init) ops [])).
Proof.
  intros Hinit Hrun.
  destruct (run_model ops init [] (constructed_repr _ Hinit))
    as (rs' & b' & tr' & Hrun' & Hrs & Hrepr & _).
  rewrite Hrun in Hrun'. injection Hrun' as <- <- _. now split.
Qed.

Lemma run_net_accepted (ops : list op) :
  forall b q,
    repr b q ->
    exists (rs : list result) b' (tr : list event),
      run ops b = Ret (rs, b') tr /\
      fifo_size b' = fifo_size b + net_accepted ops rs /\
      fifo_cap b' = fifo_cap b /\
      0 <= fifo_size b' <= fifo_cap b'.
Proof.
  induction ops as [| o ops IH]; intros b q Hrepr.
  - exists [], b, []. cbn. pose proof (wf_size _ (proj1 Hrepr)).
    conjuncts; lia.
  - destruct (step_repr o b q Hrepr)
      as (r & b1 & tr1 & q1 & Hstep & Hrepr1 & Hcap1 & _ & Hrel).
    destruct (IH b1 q1 Hrepr1) as (rs & b' & tr2 & Hrun & Hsize & Hcap & Hrng).
    exists (r :: rs), b', (tr1 ++ tr2).
    split; [now apply (run_cons o ops b b1) |].
    split; [| split; [congruence | assumption]].
    destruct Hrepr as (_ & Hlen & _). destruct Hrepr1 as (_ & Hlen1 & _).
    rewrite Hsize, Hlen1, Hlen.
    destruct o as [item | pitem | cur]; cbn [net_accepted];
      unfold ok in *; destruct (fst r).
    + subst q1. rewrite length_app. cbn. lia.
    + subst q1. lia.
    + destruct Hrel as (v & -> & _). cbn [length]. lia.
    + destruct Hrel as (-> & ->). lia.
    + subst q1. lia.
    + subst q1. lia.
Qed.

(** X2.  After any sequence of calls on a freshly constructed buffer,
    [size()] is the number of [add] calls that returned [true] minus the
    number of [remove] calls that returned [true], it lies between 0 and
    [capacity()], and [capacity()] is what the constructor was given. *)
Theorem size_counts_accepted (init : @FIFOBuff T) (ops : list op)
    (rs : list result) b (tr : list event) :
  constructed init ->
  run ops init = Ret (rs, b) tr ->
  size b = net_accepted ops rs /\
  0 <= size b <= capacity b /\
  capacity b = capacity init.
Proof.
  intros Hinit Hrun.
  destruct (run_net_accepted ops init [] (constructed_repr _ Hinit))
    as (rs' & b' & tr' & Hrun' & Hsize & Hcap & Hrng).
  rewrite Hrun in Hrun'. injection Hrun' as <- <- _.
  unfold size, capacity.
  split; [| split; assumption].
  rewrite Hsize. destruct Hinit; cbn; lia.
Qed.

(** *** Runs of one kind of call *)

Lemma run_app (ops1 ops2 : list op) :
  forall b b1 b2 (rs1 rs2 : list result) (tr1 tr2 : list event),
    run ops1 b = Ret (rs1, b1) tr1 ->
    run ops2 b1 = Ret (rs2, b2) tr2 ->
    run (ops1 ++ ops2) b = Ret (rs1 ++ rs2, b2) (tr1 ++ tr2).
Proof.
  induction ops1 as [| o ops1 IH]; intros b b1 b2 rs1 rs2 tr1 tr2 H1 H2.
  - cbn in H1. injection H1 as <- <- <-. exact H2.
  - cbn [run app] in *.
    destruct (step o b) as [| [r bm] trm]; cbn in *; [discriminate |].
    destruct (run ops1 bm) as [| [rs1' b1'] tr1'] eqn:Hrun1;
      cbn in *; [discriminate |].
    injection H1 as <- <- <-.
    rewrite (IH bm b1' b2 rs1' rs2 tr1' tr2 Hrun1 H2). cbn.
    now rewrite !app_nil_r, app_assoc.
Qed.

(** Adding while there is room. *)
Lemma run_adds (xs : list T) :
  forall b q,
    repr b q ->
    Z.of_nat (length q + length xs) <= fifo_cap b ->
    exists b' (tr : list event),
      run (map Add xs) b = Ret (map (fun _ => (true, None)) xs, b') tr /\
      repr b' (q ++ xs) /\
      fifo_cap b' = fifo_cap b.
Proof.
  induction xs as [| x xs IH]; intros b q Hrepr Hroom.
  - exists b, []. cbn. rewrite app_nil_r. conjuncts.
  - cbn [length] in Hroom.
    assert (fifo_size b < fifo_cap b) as Hlt
      by (destruct Hrepr as (_ & -> & _); lia).
    destruct (add_repr b q x Hrepr Hlt) as (b1 & Hadd & Hrepr1 & Hcap1).
    destruct (IH b1 (q ++ [x]) Hrepr1) as (b' & tr & Hrun & Hrepr' & Hcap').
    { rewrite length_app, Hcap1. cbn. lia. }
    exists b', ([Construct (tail b) x] ++ tr). cbn [map].
    split.
    + apply (run_cons (Add x) (map Add xs) b b1); [| assumption].
      cbn [step]. now rewrite Hadd.
    + rewrite <- app_assoc in Hrepr'. split; [assumption | congruence].
Qed.

(** Removing what is there, oldest first. *)
Lemma run_removes pitem (q1 : list T) :
  forall b q2,
    repr b (q1 ++ q2) ->
    exists b' (tr : list event),
      run (map (fun _ => Remove pitem) q1) b
        = Ret (map (fun v => (true, deliver pitem v)) q1, b') tr /\
      repr b' q2 /\
      fifo_cap b' = fifo_cap b.
Proof.
  induction q1 as [| v q1 IH]; intros b q2 Hrepr.
  - exists b, []. cbn. conjuncts.
  - destruct (remove_repr b v (q1 ++ q2) pitem Hrepr)
      as (b1 & st & _ & Hrem & Hrepr1 & Hcap1).
    destruct (IH b1 q2 Hrepr1) as (b' & tr & Hrun & Hrepr' & Hcap').
    eexists b', _. cbn [map].
    split.
    + eapply (run_cons (Remove pitem) _ b b1); [| exact Hrun].
      cbn [step]. now rewrite Hrem.
    + split; [assumption | congruence].
Qed.

Lemma map_const_replicate {A B : Type} (x : B) (l : list A) :
  map (fun _ => x) l = replicate (length l) x.
Proof. induction l as [| a l IH]; cbn; [reflexivity | now rewrite IH]. Qed.

Lemma run_one (o : op) b b' (r : result) (tr : list event) :
  step o b = Ret (r, b') tr -> run [o] b = Ret ([r], b') tr.
Proof.
  intros Hstep. rewrite <- (app_nil_r tr).
  now apply (run_cons o [] b b').
Qed.

(** X3.  A freshly constructed buffer accepts as many [add] calls as its
    capacity and rejects the next one; [size()] then equals [capacity()]. *)
Theorem fills_to_capacity (init : @FIFOBuff T) (xs : list T) (y : T) :
  constructed init ->
  Z.of_nat (length xs) = capacity init ->
  exists b (tr : list event),
    run (map Add xs ++ [Add y]) init
      = Ret (replicate (length xs) (true, None) ++ [(false, None)], b) tr /\
    size b = capacity init.
Proof.
  intros Hinit Hlen. unfold capacity in Hlen.
  destruct (run_adds xs init [] (constructed_repr _ Hinit))
    as (b & tr & Hrun & Hrepr & Hcap); [cbn; lia |].
  cbn [app] in Hrepr.
  assert (fifo_size b = fifo_cap b) as Hfull
    by (destruct Hrepr as (_ & -> & _); lia).
  exists b, (tr ++ []). split.
  - rewrite <- map_const_replicate.
    apply (run_app _ _ init b b); [assumption |].
    apply run_one. cbn [step]. rewrite add_rejects by lia. reflexivity.
  - unfold size, capacity. lia.
Qed.

(** X4.  The buffer as a ring: fill it with [xs], take [k] elements out,
    add [k] more, [ys], and drain it.  Every call is accepted, the drain
    delivers the remaining elements of [xs] and then [ys], in order, and a
    further [remove] is rejected.  With [k = 0] this is filling and
    draining. *)
Theorem wraps_around (init : @FIFOBuff T) (xs ys : list T) (cur : rvalue) :
  constructed init ->
  Z.of_nat (length xs) = capacity init ->
  (length ys <= length xs)%nat ->
  exists b (tr : list event),
    run (map Add xs
         ++ replicate (length ys) (Remove None)
         ++ map Add ys
         ++ replicate (length xs) (Remove (Some cur))
         ++ [Remove None]) init
      = Ret (replicate (length xs) (true, None)
             ++ replicate (length ys) (true, None)
             ++ replicate (length ys) (true, None)
             ++ map (fun v => (true, Some (Val v)))
                    (drop (length ys) xs ++ ys)
             ++ [(false, None)], b) tr /\
    size b = 0.
Proof.
  intros Hinit Hlen Hk. unfold capacity in Hlen.
  destruct (run_adds xs init [] (constructed_repr _ Hinit))
    as (b1 & tr1 & Hrun1 & Hrepr1 & Hcap1); [cbn; lia |].
  cbn [app] in Hrepr1. rewrite <- (take_drop (length ys) xs) in Hrepr1.
  destruct (run_removes None (take (length ys) xs) b1
              (drop (length ys) xs) Hrepr1)
    as (b2 & tr2 & Hrun2 & Hrepr2 & Hcap2).
  destruct (run_adds ys b2 (drop (length ys) xs) Hrepr2)
    as (b3 & tr3 & Hrun3 & Hrepr3 & Hcap3).
  { rewrite length_drop. lia. }
  rewrite <- (app_nil_r (drop (length ys) xs ++ ys)) in Hrepr3.
  destruct (run_removes (Some cur) (drop (length ys) xs ++ ys) b3 []
              Hrepr3)
    as (b4 & tr4 & Hrun4 & Hrepr4 & Hcap4).
  assert (fifo_size b4 = 0) as Hempty by apply Hrepr4.
  cbn [deliver] in Hrun2, Hrun4.
  rewrite (map_const_replicate (true, None)) in Hrun1, Hrun2, Hrun3.
  rewrite (map_const_replicate (Remove None)) in Hrun2.
  rewrite (map_const_replicate (Remove (Some cur))) in Hrun4.
  rewrite length_take, Nat.min_l in Hrun2 by lia.
  rewrite length_app, length_drop in Hrun4.
  replace (length xs - length ys + length ys)%nat with (length xs)
    in Hrun4 by lia.
  exists b4, (tr1 ++ tr2 ++ tr3 ++ tr4 ++ []).
  split; [| exact Hempty].
  apply (run_app _ _ init b1 b4); [exact Hrun1 |].
  apply (run_app _ _ b1 b2 b4); [exact Hrun2 |].
  apply (run_app _ _ b2 b3 b4); [exact Hrun3 |].
  apply (run_app _ _ b3 b4 b4); [exact Hrun4 |].
  apply run_one. cbn [step]. rewrite remove_rejects by assumption.
  reflexivity.
Qed.

(** *** The destructor *)

(** One round of the loop of [~FIFOBuff()] on a buffer whose oldest element
    is [v]: the object at [head] is finalized and the window shrinks to the
    elements behind it. *)
Lemma dtor_round b v q (fuel : nat) :
  repr b (v :: q) ->
  exists b1,
    dtor_loop (S fuel) b =
      match dtor_loop fuel b1 with
      | None => None
      | Some m => Some (x <- Ret b1 [Destruct (head b) (Live v)] ;; m)
      end /\
    repr b1 q /\
    (forall k : nat, nth_index b1 k = nth_index b (S k)) /\
    buffer b1 = <[Z.to_nat (head b) := Dead v]> (buffer b) /\
    head b1 = (head b + 1) mod fifo_cap b /\
    fifo_size b1 = fifo_size b - 1 /\
    fifo_cap b1 = fifo_cap b /\
    free_mem b1 = free_mem b.
Proof.
  intros Hrepr. pose proof (repr_head_live _ _ _ Hrepr) as Hhd.
  destruct Hrepr as (Hwf & Hlen & Hwin). cbn [length] in Hlen.
  pose proof (wf_size _ Hwf) as Hs.
  pose proof (wf_cap _ Hwf) as Hc. unfold is_size_t in Hc.
  pose proof (wf_head_range _ Hwf ltac:(lia)) as Hh.
  eexists
    {| buffer := <[Z.to_nat (head b) := Dead v]> (buffer b);
       head := (head b + 1) mod fifo_cap b; tail := tail b;
       fifo_size := fifo_size b - 1; fifo_cap := fifo_cap b;
       free_mem := free_mem b |}.
  assert (forall k : nat,
            Z.to_nat (((head b + 1) mod fifo_cap b + Z.of_nat k)
                      mod fifo_cap b)
            = nth_index b (S k)) as Hidx.
  { intros k. unfold nth_index. rewrite Z.add_mod_idemp_l by lia.
    do 2 f_equal. lia. }
  split; [| split; [| conjuncts]].
  - cbn [dtor_loop]. unfold destruct_at, umod.
    destruct (Z.ltb_spec 0 (fifo_size b)) as [_ | ?]; [| lia].
    rewrite Hhd.
    destruct (Z.eqb_spec (fifo_cap b) 0) as [? | _]; [lia |].
    rewrite !size_t_wrap_small by (unfold is_size_t; lia). reflexivity.
  - split; [| split].
    + destruct Hwf. constructor; cbn; try assumption; try lia.
      * rewrite length_insert. assumption.
      * pose proof (Z.mod_pos_bound (head b + 1) (fifo_cap b)). lia.
      * rewrite wf_tail0, Z.add_mod_idemp_l by lia. f_equal. lia.
    + cbn. lia.
    + intros k v' Hk. unfold nth_index at 1. cbn [buffer head fifo_cap].
      rewrite Hidx. apply lookup_lt_Some in Hk as Hk'.
      rewrite list_lookup_insert_ne; [now apply (Hwin (S k)) |].
      unfold nth_index. intros Heq.
      apply (window_distinct (head b) (fifo_cap b) 0 (Z.of_nat (S k)));
        try lia.
      rewrite Z.add_0_r, (Z.mod_small (head b)) by lia. exact Heq.
Qed.

Lemma in_window_shrinks b b1 (i : nat) :
  fifo_size b1 = fifo_size b - 1 ->
  (forall k : nat, nth_index b1 k = nth_index b (S k)) ->
  in_window b1 i -> in_window b i.
Proof.
  intros Hsize Hidx (k & Hk & ->). exists (S k). rewrite Hidx. split; lia.
Qed.

Lemma dtor_loop_repr (q : list T) :
  forall (fuel : nat) b,
    repr b q ->
    (length q <= fuel)%nat ->
    exists b',
      dtor_loop fuel b = Some (Ret b' (window_destructs b q)) /\
      free_mem b' = free_mem b /\
      (forall (k : nat) v,
         q !! k = Some v -> buffer b' !! nth_index b k = Some (Dead v)) /\
      (forall i : nat, ~ in_window b i -> buffer b' !! i = buffer b !! i).
Proof.
  induction q as [| v q IH]; intros fuel b Hrepr Hfuel.
  - exists b. assert (fifo_size b = 0) as Hz by apply Hrepr.
    split; [| conjuncts; intros k v Hk; discriminate].
    destruct fuel; cbn; now rewrite Hz.
  - destruct fuel as [| fuel]; [cbn in Hfuel; lia |].
    pose proof Hrepr as (Hwf & Hlen & _). cbn [length] in Hlen, Hfuel.
    pose proof (wf_size _ Hwf) as Hs.
    pose proof (wf_head_range _ Hwf ltac:(lia)) as Hh.
    destruct (dtor_round b v q fuel Hrepr)
      as (b1 & Hloop & Hrepr1 & Hidx & Hbuf & Hhead & Hsize & Hcap & Hfree).
    destruct (IH fuel b1 Hrepr1 ltac:(lia))
      as (b' & Hloop1 & Hfree' & Hdead & Hout).
    assert (~ in_window b1 (Z.to_nat (head b))) as Hnot.
    { intros (k & Hk & Heq). rewrite Hidx in Heq. unfold nth_index in Heq.
      apply (window_distinct (head b) (fifo_cap b) 0 (Z.of_nat (S k)));
        try lia.
      rewrite Z.add_0_r, (Z.mod_small (head b)) by lia. exact Heq. }
    exists b'. split; [| split; [congruence | split]].
    + rewrite Hloop, Hloop1. cbn. do 2 f_equal.
      unfold window_destructs. f_equal.
      * f_equal. cbn. now rewrite Z.add_0_r, Z.mod_small by lia.
      * apply imap_ext. intros k v' _. cbn. rewrite Hhead, Hcap.
        rewrite Z.add_mod_idemp_l by lia. do 2 f_equal. lia.
    + intros [| k] v' Hk.
      * cbn in Hk. injection Hk as <-.
        rewrite nth_index_0 by (assumption || lia).
        rewrite (Hout _ Hnot), Hbuf.
        apply list_lookup_insert_eq. pose proof (wf_mem _ Hwf). lia.
      * rewrite <- Hidx. now apply Hdead.
    + intros i Hi. rewrite Hout.
      * rewrite Hbuf. apply list_lookup_insert_ne. intros <-. apply Hi.
        exists 0%nat. rewrite nth_index_0 by (assumption || lia).
        split; [lia | reflexivity].
      * intros Hin. apply Hi. now apply (in_window_shrinks b b1).
Qed.

(** X5.  [~FIFOBuff()] on a buffer reached from a constructor: with fuel
    for [size()] rounds the loop ends; it makes one destructor call per
    queued element, from [head] on, each on a live object; afterwards every
    slot of the window holds a finalized object and every other slot is as
    it was; the storage is released exactly when the buffer allocated it. *)
Theorem destructor_finalizes_window (init : @FIFOBuff T) (ops : list op)
    (rs : list result) b (tr : list event) (fuel : nat) :
  constructed init ->
  run ops init = Ret (rs, b) tr ->
  (Z.to_nat (size b) <= fuel)%nat ->
  exists (q : list T) (mem : list slot),
    q = snd (model_run (capacity init) ops []) /\
    FIFOBuff_dtor fuel b =
      Some (Ret {| memory := mem; released := free_mem b |}
                (window_destructs b q)) /\
    (forall (k : nat) v,
       q !! k = Some v -> mem !! nth_index b k = Some (Dead v)) /\
    (forall i : nat, ~ in_window b i -> mem !! i = buffer b !! i).
Proof.
  intros Hinit Hrun Hfuel.
  destruct (run_model ops init [] (constructed_repr _ Hinit))
    as (rs' & b' & tr' & Hrun' & _ & Hrepr & _).
  rewrite Hrun in Hrun'. injection Hrun' as _ <- _.
  assert (length (snd (model_run (fifo_cap init) ops [])) <= fuel)%nat
    as Hlen.
  { destruct Hrepr as (_ & Hsize & _). unfold size in Hfuel. lia. }
  destruct (dtor_loop_repr _ fuel b Hrepr Hlen)
    as (b1 & Hloop & Hfree & Hdead & Hout).
  exists (snd (model_run (fifo_cap init) ops [])), (buffer b1).
  split; [reflexivity |]. split; [| split; assumption].
  unfold FIFOBuff_dtor. rewrite Hloop. cbn. rewrite app_nil_r, Hfree.
  reflexivity.
Qed.

(** *** What a call writes *)

(** A call writes at most one slot, the one at [tail], and that slot lies
    below the capacity. *)
Lemma step_writes_tail (o : op) b q (r : result) b' (tr : list event) :
  repr b q ->
  step o b = Ret (r, b') tr ->
  fifo_cap b' = fifo_cap b /\
  free_mem b' = free_mem b /\
  (buffer b' = buffer b \/
   exists s : slot,
     buffer b' = <[Z.to_nat (tail b) := s]> (buffer b) /\
     0 <= tail b < fifo_cap b).
Proof.
  intros Hrepr. pose proof Hrepr as (Hwf & Hlen & _).
  pose proof (wf_size _ Hwf) as Hs.
  destruct o as [item | pitem | cur]; cbn [step].
  - destruct (Z.ltb_spec (fifo_size b) (fifo_cap b)) as [Hlt | Hge].
    + rewrite add_accepts by assumption. cbn. intros [= <- <- <-]. cbn.
      conjuncts. right. eexists. split; [reflexivity |].
      apply wf_tail_range; [assumption | lia].
    + rewrite add_rejects by assumption. cbn. intros [= <- <- <-].
      conjuncts. now left.
  - destruct (Z.eqb_spec (fifo_size b) 0) as [Hz | Hnz].
    + rewrite remove_rejects by assumption. cbn. intros [= <- <- <-].
      conjuncts. now left.
    + pose proof (wf_head_range _ Hwf ltac:(lia)) as Hh.
      pose proof (wf_tail_range _ Hwf ltac:(lia)) as Ht.
      destruct (wf_slot b (head b) Hwf Hh) as [sh Hsh].
      destruct (wf_slot b (tail b) Hwf Ht) as [st Hst].
      rewrite (remove_accepts b pitem sh st) by (assumption || lia).
      cbn. intros [= <- <- <-]. cbn.
      conjuncts. right. eexists. split; [reflexivity | assumption].
  - destruct (peek (Some cur) b) as [| [r0 out] tr0]; cbn; [discriminate |].
    intros [= <- <- <-]. conjuncts. now left.
Qed.

Lemma run_inversion (o : op) (ops : list op) b (rs : list result) b'
    (tr : list event) :
  run (o :: ops) b = Ret (rs, b') tr ->
  exists (r : result) b1 (tr1 : list event) (rs' : list result)
         (tr2 : list event),
    step o b = Ret (r, b1) tr1 /\
    run ops b1 = Ret (rs', b') tr2 /\
    rs = r :: rs' /\ tr = tr1 ++ tr2.
Proof.
  cbn [run]. destruct (step o b) as [| [r b1] tr1]; cbn; [discriminate |].
  destruct (run ops b1) as [| [rs' b2] tr2] eqn:Hrun1; cbn;
    [discriminate |].
  intros [= <- <- <-]. exists r, b1, tr1, rs', tr2.
  rewrite app_nil_r. conjuncts.
Qed.

Lemma run_writes_below_capacity (ops : list op) :
  forall b q (rs : list result) b' (tr : list event),
    repr b q ->
    run ops b = Ret (rs, b') tr ->
    length (buffer b') = length (buffer b) /\
    free_mem b' = free_mem b /\
    forall i : nat,
      fifo_cap b <= Z.of_nat i -> buffer b' !! i = buffer b !! i.
Proof.
  induction ops as [| o ops IH]; intros b q rs b' tr Hrepr Hrun.
  - cbn in Hrun. injection Hrun as <- <- <-. conjuncts.
  - apply run_inversion in Hrun
      as (r & b1 & tr1 & rs' & tr2 & Hstep & Hrun & -> & ->).
    destruct (step_repr o b q Hrepr)
      as (r0 & b0 & tr0 & q1 & Hstep0 & Hrepr1 & _).
    rewrite Hstep in Hstep0. injection Hstep0 as <- <- <-.
    destruct (step_writes_tail o b q r b1 tr1 Hrepr Hstep)
      as (Hcap & Hfree & Hbuf).
    destruct (IH b1 q1 rs' b' tr2 Hrepr1 Hrun) as (Hlen' & Hfree' & Hout').
    rewrite Hcap in Hout'.
    destruct Hbuf as [Hbuf | (s & Hbuf & Ht)]; rewrite Hbuf in *.
    + conjuncts; congruence.
    + rewrite length_insert in Hlen'. split; [assumption |].
      split; [congruence |]. intros i Hi. rewrite Hout' by assumption.
      apply list_lookup_insert_ne. lia.
Qed.

(** X9.  No call writes outside the first [capacity()] slots: after any
    sequence of calls the storage has the length it had and every slot from
    index [capacity()] on is as the constructor found it.  Whether the
    buffer owns its storage never changes either. *)
Theorem storage_beyond_capacity_untouched (init : @FIFOBuff T)
    (ops : list op) (rs : list result) b (tr : list event) :
  constructed init ->
  run ops init = Ret (rs, b) tr ->
  length (buffer b) = length (buffer init) /\
  free_mem b = free_mem init /\
  forall i : nat,
    capacity init <= Z.of_nat i -> buffer b !! i = buffer init !! i.
Proof.
  intros Hinit Hrun.
  exact (run_writes_below_capacity ops init [] rs b tr
           (constructed_repr _ Hinit) Hrun).
Qed.

(** *** The oldest element of a full buffer *)

(** X8.  On a full buffer [tail] equals [head], and there [peek] and
    [remove] both address the oldest element: [peek] yields the value
    [remove] yields, and [remove] finalizes the object it takes out. *)
Theorem full_buffer_peek_and_remove_agree (init : @FIFOBuff T)
    (ops : list op) (rs : list result) b (tr : list event)
    (cur : rvalue) pitem :
  constructed init ->
  run ops init = Ret (rs, b) tr ->
  0 < capacity b ->
  size b = capacity b ->
  exists (v : T) b',
    tail b = head b /\
    peek (Some cur) b = Ret (true, Some (Val v)) [Load (head b)] /\
    remove pitem b =
      Ret (true, deliver pitem v, b')
          (copy_out pitem (head b) ++ [Destruct (head b) (Live v)]) /\
    buffer b' !! Z.to_nat (head b) = Some (Dead v) /\
    size b' = size b - 1.
Proof.
  unfold size, capacity. intros Hinit Hrun Hpos Hfull.
  destruct (run_repr ops init [] (constructed_repr _ Hinit))
    as (rs' & b0 & tr' & q & Hrun' & Hrepr & _).
  rewrite Hrun in Hrun'. injection Hrun' as _ <- _.
  pose proof Hrepr as (Hwf & Hlen & _).
  destruct q as [| v q]; [cbn in Hlen; lia |].
  pose proof (repr_head_live _ _ _ Hrepr) as Hhd.
  pose proof (full_tail_is_head b Hwf Hpos Hfull) as Htail.
  pose proof (wf_head_range _ Hwf Hpos) as Hh.
  eexists v, _. split; [assumption |]. split; [| split; [| split]].
  - rewrite <- Htail.
    apply (peek_accepts b cur (Live v)); [lia | now rewrite Htail].
  - rewrite (remove_accepts b pitem (Live v) (Live v))
      by (rewrite ?Htail; assumption || lia).
    rewrite Htail. destruct pitem; reflexivity.
  - cbn. rewrite ?Htail. apply list_lookup_insert_eq.
    pose proof (wf_mem _ Hwf). lia.
  - reflexivity.
Qed.

(** *** Buffers nothing was removed from *)

Lemma in_window_dec b (i : nat) : in_window b i \/ ~ in_window b i.
Proof.
  unfold in_window.
  assert (forall n : nat,
            (exists k : nat, (k < n)%nat /\ i = nth_index b k) \/
            ~ (exists k : nat, (k < n)%nat /\ i = nth_index b k)) as Hbounded.
  { induction n as [| n [(k & Hk & Hi) | Hnone]].
    - right. intros (k & Hk & _). lia.
    - left. exists k. split; [lia | assumption].
    - destruct (decide (i = nth_index b n)) as [Heq | Hne].
      + left. exists n. split; [lia | assumption].
      + right. intros (k & Hk & Hi). apply Hnone.
        destruct (decide (k = n)) as [-> | Hkn]; [contradiction |].
        exists k. split; [lia | assumption]. }
  destruct (Hbounded (Z.to_nat (fifo_size b))) as [(k & Hk & Hi) | Hnone].
  - left. exists k. split; [lia | assumption].
  - right. intros (k & Hk & Hi). apply Hnone. exists k. split; [lia |].
    assumption.
Qed.

Lemma add_no_stray b q item b' (tr : list event) :
  repr b q -> no_stray_object b ->
  add item b = Ret (true, b') tr ->
  no_stray_object b'.
Proof.
  intros Hrepr Hno Hadd. pose proof Hrepr as (Hwf & Hlen & _).
  pose proof (wf_size _ Hwf) as Hs.
  destruct (Z.ltb_spec (fifo_size b) (fifo_cap b)) as [Hlt | Hge];
    [| rewrite add_rejects in Hadd by assumption; discriminate].
  rewrite add_accepts in Hadd by assumption.
  injection Hadd as <- <-.
  intros i s Hi Hlive. cbn [buffer] in Hi.
  destruct (decide (i = Z.to_nat (tail b))) as [-> | Hne].
  - exists (Z.to_nat (fifo_size b)). cbn [fifo_size]. split; [lia |].
    unfold nth_index. cbn [head fifo_cap].
    rewrite Z2Nat.id by lia. now rewrite (wf_tail _ Hwf).
  - rewrite list_lookup_insert_ne in Hi by congruence.
    destruct (Hno i s Hi Hlive) as (k & Hk & ->).
    exists k. cbn [fifo_size]. split; [lia | reflexivity].
Qed.

Lemma run_no_stray (ops : list op) :
  forall b q (rs : list result) b' (tr : list event),
    repr b q -> no_stray_object b ->
    remove_ptrs ops = [] ->
    run ops b = Ret (rs, b') tr ->
    no_stray_object b'.
Proof.
  induction ops as [| o ops IH]; intros b q rs b' tr Hrepr Hno Hops Hrun.
  - cbn in Hrun. now injection Hrun as <- <- <-.
  - apply run_inversion in Hrun
      as (r & b1 & tr1 & rs' & tr2 & Hstep & Hrun & -> & ->).
    destruct (step_repr o b q Hrepr)
      as (r0 & b0 & tr0 & q1 & Hstep0 & Hrepr1 & _).
    rewrite Hstep in Hstep0. injection Hstep0 as <- <- <-.
    destruct o as [item | pitem | cur]; cbn [remove_ptrs] in Hops;
      [| discriminate |]; cbn [step] in Hstep.
    + destruct (add item b) as [| [[] b2] tr3] eqn:Hadd; cbn in Hstep;
        [discriminate | |]; injection Hstep as <- <- <-.
      * apply (IH b2 q1 rs' b' tr2); try assumption.
        now apply (add_no_stray b q item b2 tr3).
      * destruct (Z.ltb_spec (fifo_size b) (fifo_cap b)) as [Hlt | Hge].
        { rewrite add_accepts in Hadd by (assumption || apply Hrepr).
          discriminate. }
        rewrite add_rejects in Hadd by assumption.
        injection Hadd as <- <-.
        now apply (IH b q1 rs' b' tr2).
    + destruct (peek (Some cur) b) as [| [r0 out] tr0]; cbn in Hstep;
        [discriminate |]. injection Hstep as <- <- <-.
      now apply (IH b q1 rs' b' tr2).
Qed.

(** X7.  A buffer that was only added to and peeked at, over storage that
    held no object to begin with, keeps the storage invariant (a slot holds
    a live object exactly when it lies in the window), and its destructor
    leaves no live object behind. *)
Theorem nothing_removed_nothing_leaks (init : @FIFOBuff T) (ops : list op)
    (rs : list result) b (tr : list event) :
  constructed init ->
  Forall (fun s => is_live s = false) (buffer init) ->
  remove_ptrs ops = [] ->
  run ops init = Ret (rs, b) tr ->
  live_iff_window b /\
  exists (mem : list slot) (tr' : list event),
    FIFOBuff_dtor (Z.to_nat (size b)) b
      = Some (Ret {| memory := mem; released := free_mem b |} tr') /\
    Forall (fun s => is_live s = false) mem.
Proof.
  intros Hinit Hraw Hops Hrun.
  destruct (run_repr ops init [] (constructed_repr _ Hinit))
    as (rs' & b0 & tr0 & q & Hrun' & Hrepr & _).
  rewrite Hrun in Hrun'. injection Hrun' as _ <- _.
  assert (no_stray_object b) as Hno.
  { apply (run_no_stray ops init [] rs b tr);
      try assumption; [now apply constructed_repr |].
    intros i s Hi Hlive. rewrite Forall_lookup in Hraw.
    rewrite (Hraw i s Hi) in Hlive. discriminate. }
  pose proof Hrepr as (Hwf & Hlen & Hwin).
  split.
  - intros i s Hi. split; [now apply Hno |].
    intros (k & Hk & ->).
    destruct (lookup_lt_is_Some_2 q k ltac:(lia)) as [v Hv].
    rewrite (Hwin k v Hv) in Hi. now injection Hi as <-.
  - destruct (dtor_loop_repr q (Z.to_nat (size b)) b Hrepr)
      as (b1 & Hloop & Hfree & Hdead & Hout); [unfold size; lia |].
    exists (buffer b1), (window_destructs b q ++ []). split.
    + unfold FIFOBuff_dtor. rewrite Hloop. cbn. now rewrite Hfree.
    + apply Forall_lookup. intros i s Hi.
      destruct (is_live s) eqn:Hlive; [exfalso | reflexivity].
      assert (in_window b i) as (k & Hk & ->).
      { destruct (in_window_dec b i) as [Hin | Hnin]; [assumption |].
        rewrite (Hout i Hnin) in Hi. now apply (Hno i s). }
      destruct (lookup_lt_is_Some_2 q k ltac:(lia)) as [v Hv].
      rewrite (Hdead k v Hv) in Hi. injection Hi as <-. discriminate.
Qed.

End Facts.

(** ** The claims at concrete buffers *)

Lemma is_size_t_small (z : Z) : 0 <= z <= 1000 -> is_size_t z.
Proof. unfold is_size_t, SIZE_MAX. lia. Qed.

Lemma fifo_order_witness :
  let ops : list (@op Z) :=
    [Add 1; Add 2; Remove (Some Indet); Peek Indet; Add 3;
     Remove (Some Indet); Add 4; Remove None; Remove (Some (Val 0))] in
  never_overrun 2 0 ops = true /\
  exists (rs : list (@result Z)) b (tr : list (@event Z)),
    run ops (FIFOBuff_new 2) = Ret (rs, b) tr /\
    all_accepted ops rs = true /\
    removed ops rs = [Some (Val 1); Some (Val 2); None; Some (Val 4)].
Proof.
  intros ops. split; [reflexivity |].
  apply (fifo_order (FIFOBuff_new 2) ops).
  - apply constructed_new, is_size_t_small. lia.
  - reflexivity.
Defined.

Lemma rejected_calls_change_nothing_witness :
  let full : @FIFOBuff Z :=
    {| buffer := [Live 5]; head := 0; tail := 0;
       fifo_size := 1; fifo_cap := 1; free_mem := true |} in
  add 9 full = Ret (false, full) [] /\
  remove (Some Indet) (FIFOBuff_new 1) =
    Ret (false, Some (@Indet Z), FIFOBuff_new 1) [] /\
  peek (Some Indet) (FIFOBuff_new 1) = Ret (false, Some (@Indet Z)) [].
Proof.
  intros full. split.
  - apply (rejected_calls_change_nothing full 9 None). reflexivity.
  - apply (rejected_calls_change_nothing (FIFOBuff_new 1) 9 (Some Indet)).
    reflexivity.
Defined.

Lemma counters_stay_in_range_witness :
  exists (rs : list result) (b : @FIFOBuff Z) (tr : list event),
    run [Add 1; Add 2; Add 3; Remove None; Peek Indet; Add 4]
        (FIFOBuff_new 2) = Ret (rs, b) tr /\
    bounds b /\ fifo_cap b = 2.
Proof.
  apply (counters_stay_in_range (FIFOBuff_new 2)
           [Add 1; Add 2; Add 3; Remove None; Peek Indet; Add 4]).
  - apply constructed_new, is_size_t_small. lia.
  - reflexivity.
Defined.

Lemma zero_capacity_rejects_everything_witness :
  run [Add 1; Remove (Some Indet); Peek Indet; Remove None]
      (FIFOBuff_ext [Raw; Live 8] 0)
  = Ret ([(false, None); (false, Some Indet); (false, Some Indet);
          (false, None)],
         FIFOBuff_ext [Raw; Live 8] 0) [].
Proof.
  apply (zero_capacity_rejects_everything (FIFOBuff_ext [Raw; Live 8] 0)
           [Add 1; Remove (Some Indet); Peek Indet; Remove None]).
  - apply constructed_ext; [apply is_size_t_small; lia | cbn; lia].
  - reflexivity.
Defined.

Lemma add_then_remove_witness :
  let b : @FIFOBuff Z :=
    {| buffer := [Live 1; Raw; Raw]; head := 1; tail := 1;
       fifo_size := 0; fifo_cap := 3; free_mem := true |} in
  exists b1 (tr1 : list event) b2 (tr2 : list event),
    add 7 b = Ret (true, b1) tr1 /\
    remove (Some Indet) b1 = Ret (true, Some (Val 7), b2) tr2 /\
    fifo_size b2 = 0.
Proof.
  intros b. apply (add_then_remove b 7 Indet).
  - exists (FIFOBuff_new 3), [Add 1; Remove None],
      [(true, None); (true, None)], [Construct 0 1; Destruct 1 Raw].
    split; [apply constructed_new, is_size_t_small; lia | reflexivity].
  - reflexivity.
  - reflexivity.
Defined.

(** C1.  [remove], on the buffer that one [add(7)] leaves behind in storage
    for two elements: the element at [head] (slot 0) is copied out, [head]
    advances and [fifo_size] drops to zero, but the destructor call is made
    on slot 1, the slot at [tail], which never held an object; slot 0 still
    holds the live object afterwards. *)
Theorem remove_destructs_slot_at_tail :
  let b1 : @FIFOBuff Z :=
    {| buffer := [Live 7; Raw]; head := 0; tail := 1;
       fifo_size := 1; fifo_cap := 2; free_mem := true |} in
  run [Add 7] (FIFOBuff_new 2) = Ret ([(true, None)], b1) [Construct 0 7] /\
  remove (Some Indet) b1 =
    Ret (true, Some (Val 7),
         {| buffer := [Live 7; Raw]; head := 1; tail := 1;
            fifo_size := 0; fifo_cap := 2; free_mem := true |})
        [Load 0; Destruct 1 Raw].
Proof. split; reflexivity. Qed.

(** C2.  [peek] reads the slot at [tail].  After [add(1)], [add(2)] on
    storage for three elements it reads slot 2, which was never written,
    while the [remove] that follows yields 1.  After [add(1)], [add(2)],
    [remove] on storage for two elements it yields 1 again, the element
    just removed, while the [remove] that follows yields 2. *)
Theorem peek_reads_slot_at_tail :
  run [Add 1; Add 2; Peek (Val 0); Remove (Some (Val 0))]
      (@FIFOBuff_new Z 3)
  = Ret ([(true, None); (true, None); (true, Some Indet);
          (true, Some (Val 1))],
         {| buffer := [Live 1; Live 2; Raw]; head := 1; tail := 2;
            fifo_size := 1; fifo_cap := 3; free_mem := true |})
        [Construct 0 1; Construct 1 2; Load 2; Load 0; Destruct 2 Raw] /\
  run [Add 1; Add 2; Remove (Some Indet); Peek Indet; Remove (Some Indet)]
      (@FIFOBuff_new Z 2)
  = Ret ([(true, None); (true, None); (true, Some (Val 1));
          (true, Some (Val 1)); (true, Some (Val 2))],
         {| buffer := [Dead 1; Live 2]; head := 0; tail := 0;
            fifo_size := 0; fifo_cap := 2; free_mem := true |})
        [Construct 0 1; Construct 1 2; Load 0; Destruct 0 (Live 1);
         Load 0; Load 1; Destruct 0 (Dead 1)].
Proof. split; reflexivity. Qed.

(** C3.  Three elements added, two removed, then the buffer destroyed, on
    storage for three elements.  The second [remove] runs the destructor on
    slot 0 a second time and leaves the object in slot 1 alive outside the
    window, so the storage invariant fails; the destructor of the buffer
    finalizes slot 2 only, and the storage is released with the object in
    slot 1 never finalized. *)
Theorem removed_object_leaks :
  let b : @FIFOBuff Z :=
    {| buffer := [Dead 1; Live 2; Live 3]; head := 2; tail := 0;
       fifo_size := 1; fifo_cap := 3; free_mem := true |} in
  run [Add 1; Add 2; Add 3; Remove None; Remove None] (FIFOBuff_new 3)
  = Ret ([(true, None); (true, None); (true, None); (true, None);
          (true, None)], b)
        [Construct 0 1; Construct 1 2; Construct 2 3;
         Destruct 0 (Live 1); Destruct 0 (Dead 1)] /\
  filter (fun e => stray_destruct e = true)
    [Construct 0 1; Construct 1 2; Construct 2 3;
     Destruct 0 (Live 1); Destruct 0 (Dead 1)]
  = [Destruct 0 (Dead 1)] /\
  ~ live_iff_window b /\
  FIFOBuff_dtor 1 b =
    Some (Ret {| memory := [Dead 1; Live 2; Dead 3]; released := true |}
              [Destruct 2 (Live 3)]) /\
  live_objects [Dead 1; Live 2; Dead 3] = [Live 2].
Proof.
  intros b. split; [reflexivity |]. split; [reflexivity |].
  split; [| split; reflexivity].
  intros Hinv. destruct (Hinv 1%nat (Live 2) eq_refl) as [Hlive _].
  destruct (Hlive eq_refl) as (k & Hk & Hi). cbn in Hk.
  assert (k = 0%nat) as -> by lia. discriminate Hi.
Qed.

(** ** The further properties at concrete buffers *)

Lemma refines_bounded_queue_witness :
  let ops : list (@op Z) :=
    [Add 1; Add 2; Add 3; Peek Indet; Remove (Some Indet); Remove None;
     Remove None] in
  let rs : list (@result Z) :=
    [(true, None); (true, None); (false, None); (true, Some (Val 1));
     (true, Some (Val 1)); (true, None); (false, None)] in
  let b : @FIFOBuff Z :=
    {| buffer := [Dead 1; Live 2]; head := 0; tail := 0;
       fifo_size := 0; fifo_cap := 2; free_mem := true |} in
  forget_all_peeked ops rs =
    [(true, None); (true, None); (false, None); (true, None);
     (true, Some (Val 1)); (true, None); (false, None)] /\
  repr b [].
Proof.
  intros ops rs b.
  apply (refines_bounded_queue (FIFOBuff_new 2) ops rs b
           [Construct 0 1; Construct 1 2; Load 0; Load 0;
            Destruct 0 (Live 1); Destruct 0 (Dead 1)]).
  - apply constructed_new, is_size_t_small. lia.
  - reflexivity.
Defined.

Lemma size_counts_accepted_witness :
  let b : @FIFOBuff Z :=
    {| buffer := [Live 4; Live 2; Live 3]; head := 1; tail := 1;
       fifo_size := 3; fifo_cap := 3; free_mem := true |} in
  size b = 1 + (1 + (1 + (-1 + (1 + 0)))) /\
  0 <= size b <= capacity b /\
  capacity b = 3.
Proof.
  intros b.
  apply (size_counts_accepted (FIFOBuff_new 3)
           [Add 1; Add 2; Add 3; Remove None; Add 4]
           [(true, None); (true, None); (true, None); (true, None);
            (true, None)] b
           [Construct 0 1; Construct 1 2; Construct 2 3;
            Destruct 0 (Live 1); Construct 0 4]).
  - apply constructed_new, is_size_t_small. lia.
  - reflexivity.
Defined.

Lemma fills_to_capacity_witness :
  exists (b : @FIFOBuff Z) (tr : list event),
    run [Add 1; Add 2; Add 3] (FIFOBuff_new 2)
      = Ret ([(true, None); (true, None); (false, None)], b) tr /\
    size b = 2.
Proof.
  apply (fills_to_capacity (FIFOBuff_new 2) [1; 2] 3).
  - apply constructed_new, is_size_t_small. lia.
  - reflexivity.
Defined.

Lemma wraps_around_witness :
  exists (b : @FIFOBuff Z) (tr : list event),
    run [Add 1; Add 2; Add 3; Remove None; Remove None; Add 4; Add 5;
         Remove (Some Indet); Remove (Some Indet); Remove (Some Indet);
         Remove None] (FIFOBuff_new 3)
      = Ret ([(true, None); (true, None); (true, None);
              (true, None); (true, None); (true, None); (true, None);
              (true, Some (Val 3)); (true, Some (Val 4));
              (true, Some (Val 5)); (false, None)], b) tr /\
    size b = 0.
Proof.
  apply (wraps_around (FIFOBuff_new 3) [1; 2; 3] [4; 5] Indet).
  - apply constructed_new, is_size_t_small. lia.
  - reflexivity.
  - cbn. lia.
Defined.

Lemma destructor_finalizes_window_witness :
  let b : @FIFOBuff Z :=
    {| buffer := [Live 4; Live 2; Live 3]; head := 1; tail := 1;
       fifo_size := 3; fifo_cap := 3; free_mem := true |} in
  exists (q : list Z) (mem : list slot),
    q = [2; 3; 4] /\
    FIFOBuff_dtor 5 b =
      Some (Ret {| memory := mem; released := true |}
                [Destruct 1 (Live 2); Destruct 2 (Live 3);
                 Destruct 0 (Live 4)]) /\
    (forall (k : nat) v,
       q !! k = Some v -> mem !! nth_index b k = Some (Dead v)) /\
    (forall i : nat, ~ in_window b i -> mem !! i = buffer b !! i).
Proof.
  intros b.
  destruct (destructor_finalizes_window (FIFOBuff_new 3)
              [Add 1; Add 2; Add 3; Remove None; Add 4]
              [(true, None); (true, None); (true, None); (true, None);
               (true, None)] b
              [Construct 0 1; Construct 1 2; Construct 2 3;
               Destruct 0 (Live 1); Construct 0 4] 5)
    as (q & mem & -> & Hdtor & Hdead & Hout).
  - apply constructed_new, is_size_t_small. lia.
  - reflexivity.
  - cbn. lia.
  - exists [2; 3; 4], mem. split; [reflexivity |].
    split; [exact Hdtor |]. split; [exact Hdead | exact Hout].
Defined.

Lemma instance_count_balanced_witness :
  exists (rs : list result) (b : @FIFOBuff Z) (tr : list event)
         (rest : remains) (tr' : list event),
    run [Add 1; Add 2; Add 3; Remove None; Remove None] (FIFOBuff_new 3)
      = Ret (rs, b) tr /\
    FIFOBuff_dtor (Z.to_nat (fifo_size b)) b = Some (Ret rest tr') /\
    instance_count (tr ++ tr') = 0.
Proof.
  apply (instance_count_balanced (FIFOBuff_new 3)
           [Add 1; Add 2; Add 3; Remove None; Remove None]).
  apply constructed_new, is_size_t_small. lia.
Defined.

Lemma nothing_removed_nothing_leaks_witness :
  let b : @FIFOBuff Z :=
    {| buffer := [Live 1; Live 2]; head := 0; tail := 0;
       fifo_size := 2; fifo_cap := 2; free_mem := true |} in
  live_iff_window b /\
  exists (mem : list slot) (tr' : list event),
    FIFOBuff_dtor (Z.to_nat (size b)) b
      = Some (Ret {| memory := mem; released := free_mem b |} tr') /\
    Forall (fun s => is_live s = false) mem.
Proof.
  intros b.
  apply (nothing_removed_nothing_leaks (FIFOBuff_new 2)
           [Add 1; Peek Indet; Add 2; Add 3]
           [(true, None); (true, Some Indet); (true, None); (false, None)]
           b [Construct 0 1; Load 1; Construct 1 2]).
  - apply constructed_new, is_size_t_small. lia.
  - repeat constructor.
  - reflexivity.
  - reflexivity.
Defined.

Lemma full_buffer_peek_and_remove_agree_witness :
  let b : @FIFOBuff Z :=
    {| buffer := [Live 3; Live 2]; head := 1; tail := 1;
       fifo_size := 2; fifo_cap := 2; free_mem := true |} in
  exists (v : Z) b',
    tail b = head b /\
    peek (Some Indet) b = Ret (true, Some (Val v)) [Load (head b)] /\
    remove (Some Indet) b =
      Ret (true, deliver (Some Indet) v, b')
          (copy_out (Some Indet) (head b)
           ++ [Destruct (head b) (Live v)]) /\
    buffer b' !! Z.to_nat (head b) = Some (Dead v) /\
    size b' = size b - 1.
Proof.
  intros b.
  apply (full_buffer_peek_and_remove_agree (FIFOBuff_new 2)
           [Add 1; Add 2; Remove None; Add 3]
           [(true, None); (true, None); (true, None); (true, None)] b
           [Construct 0 1; Construct 1 2; Destruct 0 (Live 1);
            Construct 0 3]).
  - apply constructed_new, is_size_t_small. lia.
  - reflexivity.
  - reflexivity.
  - reflexivity.
Defined.

Lemma storage_beyond_capacity_untouched_witness :
  let init : @FIFOBuff Z := FIFOBuff_ext [Raw; Dead 9; Live 8; Raw] 2 in
  let b : @FIFOBuff Z :=
    {| buffer := [Live 3; Dead 2; Live 8; Raw]; head := 0; tail := 1;
       fifo_size := 1; fifo_cap := 2; free_mem := false |} in
  length (buffer b) = length (buffer init) /\
  free_mem b = free_mem init /\
  forall i : nat,
    capacity init <= Z.of_nat i -> buffer b !! i = buffer init !! i.
Proof.
  intros init b.
  apply (storage_beyond_capacity_untouched init
           [Add 1; Add 2; Remove None; Add 3; Remove (Some Indet)]
           [(true, None); (true, None); (true, None); (true, None);
            (true, Some (Val 2))] b
           [Construct 0 1; Construct 1 2; Destruct 0 (Live 1);
            Construct 0 3; Load 1; Destruct 1 (Live 2)]).
  - apply constructed_ext; [apply is_size_t_small; lia | cbn; lia].
  - reflexivity.
Defined.

End RingFacts.

(** * Properties of the thread-safe wrapper *)

Module TSFacts.
Import TS.

Section Facts.

Context {T : Type}.

Implicit Types (q : @FIFOBuff_TS T) (m : @machine T) (p : @pc T).
Implicit Types (ps : list (@pc T)) (tr : list (@event T)).

(** *** Sums over the threads and tallies over the trace *)

Lemma sum_over_cons (w : pc -> Z) p ps :
  sum_over w (p :: ps) = w p + sum_over w ps.
Proof. reflexivity. Qed.

Lemma sum_over_insert (w : pc -> Z) ps (t : nat) p p' :
  ps !! t = Some p ->
  sum_over w (<[t := p']> ps) = sum_over w ps - w p + w p'.
Proof.
  revert t. induction ps as [| p0 ps IH]; intros [| t] Hp;
    try discriminate.
  - injection Hp as ->.
    change (<[0%nat := p']> (p :: ps)) with (p' :: ps).
    rewrite !sum_over_cons. lia.
  - change (<[S t := p']> (p0 :: ps)) with (p0 :: <[t := p']> ps).
    rewrite !sum_over_cons, (IH t Hp). lia.
Qed.

Lemma sum_over_nonneg (w : pc -> Z) ps :
  (forall p0, 0 <= w p0) -> 0 <= sum_over w ps.
Proof.
  intros Hw. induction ps as [| p ps IH]; [reflexivity |].
  rewrite sum_over_cons. specialize (Hw p). lia.
Qed.

Lemma sum_over_ge (w : pc -> Z) ps (t : nat) p :
  (forall p0, 0 <= w p0) -> ps !! t = Some p -> w p <= sum_over w ps.
Proof.
  intros Hw. revert t. induction ps as [| p0 ps IH]; intros [| t] Hp;
    try discriminate; rewrite sum_over_cons.
  - injection Hp as ->. pose proof (sum_over_nonneg w ps Hw). lia.
  - specialize (IH t Hp). specialize (Hw p0). lia.
Qed.

Lemma sum_over_quiescent (w : pc -> Z) ps :
  w Ready = 0 -> forallb is_ready ps = true -> sum_over w ps = 0.
Proof.
  intros Hw. induction ps as [| p ps IH]; [reflexivity |].
  cbn [forallb]. intros Hall. apply andb_prop in Hall as [Hp Hps].
  destruct p; try discriminate.
  rewrite sum_over_cons, IH by assumption. lia.
Qed.

Lemma forallb_replicate_ready (n : nat) :
  forallb is_ready (replicate n (@Ready T)) = true.
Proof. induction n as [| n IH]; cbn; [reflexivity | assumption]. Qed.

Lemma holds_free_nonneg p : 0 <= holds_free p.
Proof.
  destruct p as [| c | [c |] | [c |] | c]; cbn;
    try destruct (is_adding c); lia.
Qed.

Lemma holds_filled_nonneg p : 0 <= holds_filled p.
Proof.
  destruct p as [| c | [c |] | [c |] | c]; cbn;
    try destruct (is_adding c); lia.
Qed.

Lemma tally_app (f : event -> bool) tr tr' :
  tally f (tr ++ tr') = tally f tr + tally f tr'.
Proof.
  unfold tally. induction tr as [| e tr IH]; cbn; [lia |].
  rewrite IH. lia.
Qed.

Lemma tally_Fifo (f : event -> bool) (es : list (@Ring.event T)) :
  (forall e, f (Fifo e) = false) -> tally f (map Fifo es) = 0.
Proof.
  intros Hf. unfold tally. induction es as [| e es IH]; cbn; [reflexivity |].
  rewrite Hf, IH. reflexivity.
Qed.

(** *** The mutex *)

Lemma mutex_ok_owner (o : option nat) ps (t : nat) p :
  mutex_ok o ps -> ps !! t = Some p -> in_critical p = true -> o = Some t.
Proof. intros Hok Hp Hc. apply Hok. now exists p. Qed.

Lemma mutex_ok_free (o : option nat) ps (t : nat) p :
  mutex_ok o ps -> ps !! t = Some p -> in_critical p = false -> o <> Some t.
Proof.
  intros Hok Hp Hc Ho. apply Hok in Ho as (p' & Hp' & Hc').
  congruence.
Qed.

Lemma mutex_ok_same (o : option nat) ps (t : nat) p p' :
  mutex_ok o ps -> ps !! t = Some p ->
  in_critical p' = in_critical p ->
  mutex_ok o (<[t := p']> ps).
Proof.
  intros Hok Hp Hc t'. rewrite (Hok t'). apply lookup_lt_Some in Hp as Hlt.
  destruct (decide (t = t')) as [<- | Hne].
  - rewrite list_lookup_insert_eq by assumption. split.
    + intros (p0 & Hp0 & Hc0). exists p'. split; congruence.
    + intros (p0 & Hp0 & Hc0). exists p. split; congruence.
  - now rewrite list_lookup_insert_ne.
Qed.

Lemma mutex_ok_acquire ps (t : nat) p p' :
  mutex_ok None ps -> ps !! t = Some p ->
  in_critical p' = true ->
  mutex_ok (Some t) (<[t := p']> ps).
Proof.
  intros Hok Hp Hc t'. apply lookup_lt_Some in Hp as Hlt.
  destruct (decide (t = t')) as [<- | Hne].
  - rewrite list_lookup_insert_eq by assumption. split; [| reflexivity].
    intros _. now exists p'.
  - rewrite list_lookup_insert_ne by assumption. split.
    + intros [= ?]. contradiction.
    + intros Hex. apply Hok in Hex. discriminate.
Qed.

Lemma mutex_ok_release ps (t : nat) p p' :
  mutex_ok (Some t) ps -> ps !! t = Some p ->
  in_critical p' = false ->
  mutex_ok None (<[t := p']> ps).
Proof.
  intros Hok Hp Hc t'. apply lookup_lt_Some in Hp as Hlt.
  split; [discriminate |].
  destruct (decide (t = t')) as [<- | Hne].
  - rewrite list_lookup_insert_eq by assumption.
    intros (p0 & [= <-] & Hc0). congruence.
  - rewrite list_lookup_insert_ne by assumption.
    intros Hex. apply Hok in Hex. congruence.
Qed.

(** *** What [sem_open] reads of the capacity *)

Lemma unsigned_int_range (z : Z) : 0 <= unsigned_int z <= UINT_MAX.
Proof.
  unfold unsigned_int, UINT_MAX.
  pose proof (Z.mod_pos_bound z (2 ^ 32 - 1 + 1) ltac:(lia)). lia.
Qed.

Lemma unsigned_int_le (z : Z) : 0 <= z -> unsigned_int z <= z.
Proof.
  intros Hz. unfold unsigned_int, UINT_MAX. apply Z.mod_le; lia.
Qed.

Lemma unsigned_int_small (z : Z) :
  0 <= z <= SEM_VALUE_MAX -> unsigned_int z = z.
Proof.
  unfold unsigned_int, UINT_MAX, SEM_VALUE_MAX. intros Hz.
  apply Z.mod_small. lia.
Qed.

(** A capacity up to [SEM_VALUE_MAX] is one that [sem_open] accepts. *)
Lemma sem_open_ok_small (z : Z) :
  0 <= z <= SEM_VALUE_MAX -> sem_open_ok z.
Proof.
  intros Hz. unfold sem_open_ok. rewrite unsigned_int_small by exact Hz.
  lia.
Qed.

Lemma inv_cap_nonneg (cap : Z) m tr : inv cap m tr -> 0 <= cap.
Proof.
  intros Hinv. destruct (inv_fifo _ _ _ Hinv) as (qs & Hwf & _).
  pose proof (Ring.wf_cap _ Hwf) as Hc. unfold is_size_t in Hc.
  rewrite (inv_cap _ _ _ Hinv) in Hc. lia.
Qed.

(** *** One statement of one thread preserves the invariant *)

Lemma inv_update (cap : Z) m tr (t : nat) p p' q' (evs : list event) :
  inv cap m tr ->
  threads m !! t = Some p ->
  (exists qs : list T, Ring.repr (fifo q') qs) ->
  Ring.fifo_cap (fifo q') = cap ->
  add_sem q' + holds_free p' + Ring.fifo_size (fifo q')
    = add_sem (queue m) + holds_free p + Ring.fifo_size (fifo (queue m)) ->
  rem_sem q' + holds_filled p' - Ring.fifo_size (fifo q')
    = rem_sem (queue m) + holds_filled p
      - Ring.fifo_size (fifo (queue m)) ->
  Ring.fifo_size (fifo q')
    - (tally successful_add evs - tally successful_remove evs)
    - unreturned p'
    = Ring.fifo_size (fifo (queue m)) - unreturned p ->
  0 <= add_sem q' -> 0 <= rem_sem q' ->
  mutex_ok (mutex q') (<[t := p']> (threads m)) ->
  inv cap {| queue := q'; threads := <[t := p']> (threads m) |} (tr ++ evs).
Proof.
  intros [Hfifo Hcap Hfree Hfilled Hledger Hsems Hmutex] Hp
    Hfifo' Hcap' Hfree' Hfilled' Hledger' Hadd' Hrem' Hmutex'.
  constructor; cbn [queue threads]; try assumption.
  - rewrite (sum_over_insert _ _ _ _ _ Hp). lia.
  - rewrite (sum_over_insert _ _ _ _ _ Hp). lia.
  - rewrite !tally_app, (sum_over_insert _ _ _ _ _ Hp). lia.
  - lia.
Qed.

(** A thread at the call into [fifo] for an [add] finds room, and one at
    the call for a [remove] finds an element. *)
Lemma adder_finds_room (cap : Z) m tr (t : nat) (c : transfer) :
  inv cap m tr ->
  threads m !! t = Some (AtFifo (Transfer c)) ->
  is_adding c = true ->
  Ring.fifo_size (fifo (queue m)) < Ring.fifo_cap (fifo (queue m)).
Proof.
  intros Hinv Hp Hadd.
  pose proof (sum_over_ge holds_free _ _ _ holds_free_nonneg Hp) as Hge.
  cbn in Hge. rewrite Hadd in Hge.
  pose proof (inv_free _ _ _ Hinv). pose proof (inv_sems _ _ _ Hinv).
  pose proof (unsigned_int_le cap (inv_cap_nonneg _ _ _ Hinv)).
  rewrite (inv_cap _ _ _ Hinv). lia.
Qed.

Lemma remover_finds_element (cap : Z) m tr (t : nat) (c : transfer) :
  inv cap m tr ->
  threads m !! t = Some (AtFifo (Transfer c)) ->
  is_adding c = false ->
  0 < Ring.fifo_size (fifo (queue m)).
Proof.
  intros Hinv Hp Hadd.
  pose proof (sum_over_ge holds_filled _ _ _ holds_filled_nonneg Hp) as Hge.
  cbn in Hge. rewrite Hadd in Hge.
  pose proof (inv_filled _ _ _ Hinv). pose proof (inv_sems _ _ _ Hinv).
  lia.
Qed.

(** Closes the side conditions of [inv_update] once the statement has
    been evaluated. *)
Ltac side_conditions Hmutex Hp :=
  cbn; try assumption; try lia;
  try (eapply mutex_ok_same; [exact Hmutex | exact Hp | reflexivity]).

(** Applies [inv_update] to the step of the thread whose lookup is [Hp]. *)
Ltac update_inv Hinv Hp := eapply inv_update; [exact Hinv | exact Hp | ..].

Lemma invoke_inv (cap : Z) m tr (t : nat) (c : call)
    (o : outcome event machine) :
  inv cap m tr ->
  perform (Invoke t c) m = Some o ->
  exists m' (evs : list event), o = Ret m' evs /\ inv cap m' (tr ++ evs).
Proof.
  intros Hinv.
  pose proof Hinv as [Hfifo Hcap Hfree Hfilled Hledger Hsems Hmutex].
  unfold perform.
  destruct (threads m !! t) as [p |] eqn:Hp; [| discriminate].
  destruct p; try discriminate.
  destruct c as [[item | item | pitem | pitem] | cur];
    unfold invoke, sem_trywait, sem_wait, pthread_mutex_lock, sem_value.
  - destruct (Z.ltb_spec 0 (add_sem (queue m))) as [Hpos | Hle]; cbn;
      intros [= <-]; eexists _, _; (split; [reflexivity |]);
      update_inv Hinv Hp; side_conditions Hmutex Hp.
  - destruct (Z.ltb_spec 0 (add_sem (queue m))) as [Hpos | Hle]; cbn;
      intros [= <-]; eexists _, _; (split; [reflexivity |]);
      update_inv Hinv Hp; side_conditions Hmutex Hp.
  - destruct (Z.ltb_spec 0 (rem_sem (queue m))) as [Hpos | Hle]; cbn;
      intros [= <-]; eexists _, _; (split; [reflexivity |]);
      update_inv Hinv Hp; side_conditions Hmutex Hp.
  - destruct (Z.ltb_spec 0 (rem_sem (queue m))) as [Hpos | Hle]; cbn;
      intros [= <-]; eexists _, _; (split; [reflexivity |]);
      update_inv Hinv Hp; side_conditions Hmutex Hp.
  - destruct (mutex (queue m)) as [t' |] eqn:Hm; cbn; intros [= <-].
    eexists _, _. split; [reflexivity |].
    update_inv Hinv Hp; side_conditions Hmutex Hp.
    eapply mutex_ok_acquire; [exact Hmutex | exact Hp | reflexivity].
Qed.

Lemma advance_inv (cap : Z) m tr (t : nat) (o : outcome event machine) :
  inv cap m tr ->
  perform (Advance t) m = Some o ->
  exists m' (evs : list event), o = Ret m' evs /\ inv cap m' (tr ++ evs).
Proof.
  intros Hinv.
  pose proof Hinv as [Hfifo Hcap Hfree Hfilled Hledger Hsems Hmutex].
  unfold perform.
  destruct (threads m !! t) as [p |] eqn:Hp; [| discriminate].
  destruct p as [| c | c | c r out | c out]; unfold advance.
  - discriminate.
  - (* pthread_mutex_lock *)
    unfold pthread_mutex_lock.
    destruct (mutex (queue m)) as [t' |] eqn:Hm; cbn; intros [= <-].
    eexists _, _. split; [reflexivity |].
    update_inv Hinv Hp; side_conditions Hmutex Hp.
    eapply mutex_ok_acquire; [exact Hmutex | exact Hp | reflexivity].
  - (* the call into fifo *)
    destruct Hfifo as (qs & Hqs).
    destruct c as [c | cur].
    + destruct (is_adding c) eqn:Hc.
      * pose proof (adder_finds_room cap m tr t c Hinv Hp Hc) as Hroom.
        assert (exists item, c = CAdd item \/ c = CAddWait item)
          as (item & Hitem)
          by (destruct c as [i | i | |]; try discriminate; eauto).
        destruct (RingFacts.add_size _ qs item Hqs Hroom)
          as (b' & tr' & Hadd & Hqs' & Hcap' & Hsize').
        destruct Hitem as [-> | ->]; rewrite Hadd; cbn; intros [= <-];
          eexists _, _; (split; [reflexivity |]);
          update_inv Hinv Hp;
          cbn; rewrite ?app_nil_r, ?tally_Fifo by reflexivity;
          side_conditions Hmutex Hp.
      * pose proof (remover_finds_element cap m tr t c Hinv Hp Hc) as Helt.
        assert (exists pitem, c = CRemove pitem \/ c = CRemoveWait pitem)
          as (pitem & Hpitem)
          by (destruct c as [| | i | i]; try discriminate; eauto).
        destruct (RingFacts.remove_size _ qs pitem Hqs Helt)
          as (out & b' & tr' & Hrem & Hqs' & Hcap' & Hsize').
        destruct Hpitem as [-> | ->]; rewrite Hrem; cbn; intros [= <-];
          eexists _, _; (split; [reflexivity |]);
          update_inv Hinv Hp;
          cbn; rewrite ?app_nil_r, ?tally_Fifo by reflexivity;
          side_conditions Hmutex Hp.
    + unfold peek_locked, Ring.size.
      destruct (RingFacts.peek_returns _ qs cur Hqs) as (r & out & tr' & Hpeek).
      destruct (0 <? Ring.fifo_size (fifo (queue m))); rewrite ?Hpeek; cbn;
        intros [= <-]; eexists _, _; (split; [reflexivity |]);
        update_inv Hinv Hp;
        cbn; rewrite ?app_nil_r, ?tally_Fifo by reflexivity;
        side_conditions Hmutex Hp; eauto.
  - (* pthread_mutex_unlock *)
    unfold pthread_mutex_unlock.
    rewrite (mutex_ok_owner _ _ _ _ Hmutex Hp eq_refl), Nat.eqb_refl.
    assert (mutex_ok (mutex (queue m)) (threads m)) as Hmutex' by assumption.
    rewrite (mutex_ok_owner _ _ _ _ Hmutex Hp eq_refl) in Hmutex'.
    destruct c as [c | cur]; cbn; intros [= <-];
      eexists _, _; (split; [reflexivity |]);
      update_inv Hinv Hp;
      side_conditions Hmutex Hp;
      try (eapply mutex_ok_release; [exact Hmutex' | exact Hp | reflexivity]).
    all: destruct r; cbn; lia.
  - (* sem_post *)
    unfold sem_post, posts, sem_value.
    destruct (is_adding c) eqn:Hc; cbn; intros [= <-];
      eexists _, _; (split; [reflexivity |]);
      update_inv Hinv Hp;
      cbn; rewrite ?Hc; side_conditions Hmutex Hp.
Qed.

Lemma perform_inv (cap : Z) m tr (a : action) (o : outcome event machine) :
  inv cap m tr ->
  perform a m = Some o ->
  exists m' (evs : list event), o = Ret m' evs /\ inv cap m' (tr ++ evs).
Proof.
  destruct a as [t c | t]; [apply invoke_inv | apply advance_inv].
Qed.

(** *** Schedules *)

Lemma start_inv (f0 : @Ring.FIFOBuff T) (n : nat) :
  Ring.constructed f0 -> inv (Ring.fifo_cap f0) (start n (init f0)) [].
Proof.
  intros Hf0.
  assert (Ring.fifo_size f0 = 0) as Hsize by (destruct Hf0; reflexivity).
  assert (0 <= Ring.fifo_cap f0) as Hcap
    by (destruct Hf0 as [c [? ?] | buf c [? ?] ?]; assumption).
  constructor; cbn [start init queue threads fifo add_sem rem_sem mutex].
  - exists []. now apply RingFacts.constructed_repr.
  - reflexivity.
  - rewrite sum_over_quiescent
      by (reflexivity || apply forallb_replicate_ready).
    unfold Ring.capacity. lia.
  - rewrite sum_over_quiescent
      by (reflexivity || apply forallb_replicate_ready).
    lia.
  - rewrite sum_over_quiescent
      by (reflexivity || apply forallb_replicate_ready).
    cbn. lia.
  - pose proof (unsigned_int_range (Ring.capacity f0)). lia.
  - intros t. split; [discriminate |].
    intros (p & Hp & Hc). apply lookup_replicate in Hp as [-> _].
    discriminate.
Qed.

Lemma run_schedule_inv (cap : Z) (sched : list action) :
  forall m tr (o : outcome event machine),
    inv cap m tr ->
    run_schedule sched m = Some o ->
    exists m' (evs : list event), o = Ret m' evs /\ inv cap m' (tr ++ evs).
Proof.
  induction sched as [| a sched IH]; intros m tr o Hinv; cbn [run_schedule].
  - intros [= <-]. exists m, []. rewrite app_nil_r. now split.
  - unfold ebind.
    destruct (perform a m) as [o1 |] eqn:Hperf; [| discriminate].
    destruct (perform_inv cap m tr a o1 Hinv Hperf)
      as (m1 & evs1 & -> & Hinv1).
    destruct (run_schedule sched m1) as [o2 |] eqn:Hrun; [| discriminate].
    destruct (IH m1 (tr ++ evs1) o2 Hinv1 Hrun) as (m2 & evs2 & -> & Hinv2).
    intros [= <-]. exists m2, (evs1 ++ evs2). split; [reflexivity |].
    now rewrite app_assoc.
Qed.

(** The invariant holds in every state that interleaving threads reach. *)
Lemma reached_inv (f0 : @Ring.FIFOBuff T) (n : nat) (sched : list action)
    m tr :
  Ring.constructed f0 ->
  run_schedule sched (start n (init f0)) = Some (Ret m tr) ->
  inv (Ring.fifo_cap f0) m tr.
Proof.
  intros Hf0 Hrun.
  destruct (run_schedule_inv _ sched _ [] _ (start_inv f0 n Hf0) Hrun)
    as (m' & tr' & Heq & Hinv).
  injection Heq as <- <-. exact Hinv.
Qed.

(** At every reachable state the two semaphores and the units held by
    threads inside a method add up to what [sem_open] read of the
    capacity. *)
Lemma permits_in_flight (cap : Z) m tr :
  inv cap m tr ->
  free m + filled m
    + sum_over holds_free (threads m) + sum_over holds_filled (threads m)
  = unsigned_int cap.
Proof.
  intros Hinv. unfold free, filled.
  pose proof (inv_free _ _ _ Hinv). pose proof (inv_filled _ _ _ Hinv). lia.
Qed.

(** *** A thread that runs a method without interruption *)


Lemma perform_advance_at m (t : nat) p q p' q' (evs : list event) :
  (t < length (threads m))%nat ->
  advance t p q = Some (Ret (p', q') evs) ->
  perform (Advance t) (at_pc m t p q) = Some (Ret (at_pc m t p' q') evs).
Proof.
  intros Hlt Hadv. unfold perform, at_pc. cbn [threads queue].
  rewrite list_lookup_insert_eq by assumption.
  rewrite Hadv. cbn. now rewrite list_insert_insert_eq, app_nil_r.
Qed.

Lemma perform_invoke_at m (t : nat) (c : call) p' q' (evs : list event) :
  threads m !! t = Some Ready ->
  invoke t c (queue m) = Some (Ret (p', q') evs) ->
  perform (Invoke t c) m = Some (Ret (at_pc m t p' q') evs).
Proof.
  intros Hp Hinv. unfold perform. rewrite Hp, Hinv. cbn.
  now rewrite app_nil_r.
Qed.

Lemma run_schedule_cons (a : action) (sched : list action) m m1 m2
    (evs1 evs2 evs : list event) :
  perform a m = Some (Ret m1 evs1) ->
  run_schedule sched m1 = Some (Ret m2 evs2) ->
  evs = evs1 ++ evs2 ->
  run_schedule (a :: sched) m = Some (Ret m2 evs).
Proof.
  intros Hperf Hrun ->. cbn [run_schedule]. unfold ebind.
  now rewrite Hperf, Hrun.
Qed.

(** The method [add] is the run of its five statements by one thread. *)
Lemma add_runs_alone m (t : nat) (item : T) q' tr :
  threads m !! t = Some Ready ->
  add t item (queue m) = Some (Ret (true, q') tr) ->
  run_schedule (alone t (Transfer (CAdd item))) m =
    Some (Ret {| queue := q'; threads := threads m |}
              (tr ++ [Returned t (Transfer (CAdd item)) true None])).
Proof.
  intros Hp Hadd. apply lookup_lt_Some in Hp as Hlt.
  unfold add, sem_trywait, sem_value in Hadd.
  destruct (Z.ltb_spec 0 (add_sem (queue m))) as [Hpos | ?];
    cbn in Hadd; [| discriminate].
  unfold pthread_mutex_lock in Hadd. cbn in Hadd.
  destruct (mutex (queue m)) as [t' |] eqn:Hm; cbn in Hadd;
    [discriminate |].
  destruct (Ring.add item (fifo (queue m))) as [| [r b'] tr'] eqn:Hring;
    cbn in Hadd; [discriminate |].
  rewrite Nat.eqb_refl in Hadd. cbn in Hadd. injection Hadd as <- <-.
  unfold alone. cbn [app]. rewrite <- app_assoc. cbn [app].
  eapply run_schedule_cons.
  { apply perform_invoke_at; [assumption |].
    unfold invoke, sem_trywait, sem_value.
    destruct (Z.ltb_spec 0 (add_sem (queue m))); [reflexivity | lia]. }
  2: reflexivity.
  eapply run_schedule_cons.
  { apply perform_advance_at; [assumption |].
    unfold advance, pthread_mutex_lock. cbn. rewrite Hm. reflexivity. }
  2: reflexivity.
  eapply run_schedule_cons.
  { apply perform_advance_at; [assumption |].
    unfold advance. cbn. rewrite Hring. cbn.
    rewrite (app_nil_r (map Fifo tr')). reflexivity. }
  2: reflexivity.
  eapply run_schedule_cons.
  { apply perform_advance_at; [assumption |].
    unfold advance, pthread_mutex_unlock. cbn.
    rewrite Nat.eqb_refl. reflexivity. }
  2: reflexivity.
  eapply run_schedule_cons.
  { apply perform_advance_at; [assumption |]. reflexivity. }
  2: reflexivity.
  cbn [run_schedule]. unfold ret, at_pc. cbn [threads queue].
  rewrite list_insert_id by assumption. reflexivity.
Qed.


(** With a unit in hand, [add] still has to wait for the mutex. *)
Lemma add_waits_for_mutex (t t' : nat) (item : T) q :
  0 < add_sem q -> mutex q = Some t' -> add t item q = None.
Proof.
  intros Hsome Hheld. unfold add, sem_trywait, sem_value.
  destruct (Z.ltb_spec 0 (add_sem q)); [| lia].
  cbn. unfold pthread_mutex_lock. cbn. now rewrite Hheld.
Qed.

(** * The claims about the thread-safe wrapper *)

(** C7.  Threads interleave statement by statement on a queue around a
    freshly constructed buffer whose capacity is at most [SEM_VALUE_MAX],
    so that [sem_open] takes it as it is.  No schedule leads to a fault.
    In every state it reaches, free + filled and the units held by the
    threads that are inside a method add up to the capacity.  Whenever no
    thread is inside a method, [rem_sem] (filled) equals the number of
    [add]/[add_wait] calls that returned with success minus the number of
    [remove]/[remove_wait] calls that did, [add_sem] (free) equals the
    capacity minus that number, and so free + filled is the capacity.  At
    the empty schedule this gives the initial values: free is the capacity
    and filled is 0. *)
Theorem permits_partition_capacity (f0 : @Ring.FIFOBuff T) (n : nat)
    (sched : list action) (o : outcome event machine) :
  Ring.constructed f0 ->
  Ring.capacity f0 <= SEM_VALUE_MAX ->
  run_schedule sched (start n (init f0)) = Some o ->
  exists m tr,
    o = Ret m tr /\
    free m + filled m
      + sum_over holds_free (threads m) + sum_over holds_filled (threads m)
      = Ring.capacity f0 /\
    (quiescent m = true ->
     filled m = tally successful_add tr - tally successful_remove tr /\
     free m =
       Ring.capacity f0
       - (tally successful_add tr - tally successful_remove tr) /\
     free m + filled m = Ring.capacity f0).
Proof.
  intros Hf0 Hfits Hrun.
  destruct (run_schedule_inv _ sched _ [] o (start_inv f0 n Hf0) Hrun)
    as (m & tr & -> & Hinv).
  cbn [app] in Hinv.
  pose proof (inv_cap_nonneg _ _ _ Hinv) as Hcap.
  pose proof (unsigned_int_small (Ring.fifo_cap f0)
                (conj Hcap Hfits)) as Hread.
  exists m, tr. split; [reflexivity |].
  split.
  { rewrite (permits_in_flight _ m tr Hinv). exact Hread. }
  intros Hq.
  pose proof (inv_free _ _ _ Hinv) as Hfree.
  pose proof (inv_filled _ _ _ Hinv) as Hfilled.
  pose proof (inv_ledger _ _ _ Hinv) as Hledger.
  unfold quiescent in Hq.
  rewrite sum_over_quiescent in Hfree, Hfilled, Hledger
    by (reflexivity || assumption).
  unfold free, filled, Ring.capacity. lia.
Qed.


(** * Further properties of the thread-safe wrapper *)

(** *** The other methods, run by one thread *)

(** X10.  The non-blocking [remove].  If [rem_sem] holds no unit the call
    returns [false] at once and leaves the queue and [*pitem] alone.  If it
    holds one (and the mutex is free) the call takes it, runs the [remove]
    of the ring buffer between locking and unlocking, posts [add_sem] and
    returns [true], with [*pitem] as the buffer left it. *)
Theorem try_remove (t : nat) (pitem : option (@Ring.rvalue T)) q :
  (rem_sem q <= 0 ->
   remove t pitem q = Some (Ret (false, pitem, q) [TryWait RemSem false])) /\
  (0 < rem_sem q -> mutex q = None ->
   forall (r : bool) (out : option Ring.rvalue) (b' : Ring.FIFOBuff)
          (tr' : list Ring.event),
     Ring.remove pitem (fifo q) = Ret (r, out, b') tr' ->
     remove t pitem q =
       Some (Ret (true, out,
                  {| fifo := b'; mutex := None;
                     add_sem := add_sem q + 1; rem_sem := rem_sem q - 1 |})
                 ([TryWait RemSem true; Lock t] ++ map Fifo tr'
                  ++ [Unlock t; Post AddSem]))).
Proof.
  split.
  - intros Hnone. unfold remove, sem_trywait, sem_value.
    destruct (Z.ltb_spec 0 (rem_sem q)); [lia | reflexivity].
  - intros Hsome Hfree r out b' tr' Hrem.
    unfold remove, sem_trywait, sem_value.
    destruct (Z.ltb_spec 0 (rem_sem q)); [| lia].
    cbn. unfold pthread_mutex_lock. cbn. rewrite Hfree. cbn.
    rewrite Hrem. cbn. rewrite Nat.eqb_refl. cbn.
    rewrite ?app_nil_r. reflexivity.
Qed.

(** X11.  [add_wait] against [add].  Without a unit in [add_sem],
    [add] returns [false] and [add_wait] blocks.  With a unit the two
    methods wait for the mutex together and fault together, and when they
    return, [add] returns [true], both leave the same queue, and after the
    semaphore operation both have made the same events. *)
Theorem add_wait_agrees_with_add (t : nat) (item : T) q :
  (add_sem q <= 0 ->
   add t item q = Some (Ret (false, q) [TryWait AddSem false]) /\
   add_wait t item q = None) /\
  (0 < add_sem q ->
   match add t item q, add_wait t item q with
   | Some (Ret (r, q1) tr1), Some (Ret q2 tr2) =>
       r = true /\ q1 = q2 /\
       tr1 = TryWait AddSem true :: tail tr1 /\
       tr2 = Wait AddSem :: tail tr1
   | Some Fault, Some Fault => True
   | None, None => True
   | _, _ => False
   end).
Proof.
  unfold add, add_wait, sem_trywait, sem_wait, sem_value.
  split; intros Hunits.
  - destruct (Z.ltb_spec 0 (add_sem q)); [lia |]. now split.
  - destruct (Z.ltb_spec 0 (add_sem q)); [| lia]. cbn.
    unfold pthread_mutex_lock. cbn.
    destruct (mutex q) as [t' |]; cbn; [exact I |].
    destruct (Ring.add item (fifo q)) as [| [r b'] tr']; cbn; [exact I |].
    rewrite Nat.eqb_refl. cbn. conjuncts.
Qed.

(** X12.  [remove_wait] against [remove], likewise: without a unit in
    [rem_sem], [remove] returns [false] with [*pitem] untouched and
    [remove_wait] blocks; with a unit they wait and fault together and
    return the same queue and the same [*pitem]. *)
Theorem remove_wait_agrees_with_remove (t : nat)
    (pitem : option (@Ring.rvalue T)) q :
  (rem_sem q <= 0 ->
   remove t pitem q = Some (Ret (false, pitem, q) [TryWait RemSem false]) /\
   remove_wait t pitem q = None) /\
  (0 < rem_sem q ->
   match remove t pitem q, remove_wait t pitem q with
   | Some (Ret (r, out1, q1) tr1), Some (Ret (out2, q2) tr2) =>
       r = true /\ out1 = out2 /\ q1 = q2 /\
       tr1 = TryWait RemSem true :: tail tr1 /\
       tr2 = Wait RemSem :: tail tr1
   | Some Fault, Some Fault => True
   | None, None => True
   | _, _ => False
   end).
Proof.
  unfold remove, remove_wait, sem_trywait, sem_wait, sem_value.
  split; intros Hunits.
  - destruct (Z.ltb_spec 0 (rem_sem q)); [lia |]. now split.
  - destruct (Z.ltb_spec 0 (rem_sem q)); [| lia]. cbn.
    unfold pthread_mutex_lock. cbn.
    destruct (mutex q) as [t' |]; cbn; [exact I |].
    destruct (Ring.remove pitem (fifo q)) as [| [[r out] b'] tr']; cbn;
      [exact I |].
    rewrite Nat.eqb_refl. cbn. conjuncts.
Qed.

(** X13.  [peek] takes no unit from either semaphore and leaves the whole
    queue as it was.  On an empty buffer it returns [false] without a call
    into the buffer; otherwise it returns [true] with what the [peek] of
    the ring buffer stored.  It waits only for the mutex. *)
Theorem peek_leaves_queue (t : nat) (item : option (@Ring.rvalue T)) q :
  (forall t' : nat, mutex q = Some t' -> peek t item q = None) /\
  (mutex q = None -> Ring.size (fifo q) <= 0 ->
   peek t item q = Some (Ret (false, item, q) [Lock t; Unlock t])) /\
  (mutex q = None -> 0 < Ring.size (fifo q) ->
   forall (r : bool) (out : option Ring.rvalue) (tr' : list Ring.event),
     Ring.peek item (fifo q) = Ret (r, out) tr' ->
     peek t item q =
       Some (Ret (true, out, q) ([Lock t] ++ map Fifo tr' ++ [Unlock t]))).
Proof.
  unfold peek, pthread_mutex_lock, peek_locked.
  split; [| split].
  - intros t' Hheld. now rewrite Hheld.
  - intros Hfree Hempty. rewrite Hfree. cbn.
    destruct (Z.ltb_spec 0 (Ring.size (fifo q))); [lia |].
    cbn. rewrite Nat.eqb_refl. cbn.
    destruct q as [f mu a r]. cbn in Hfree. subst mu. reflexivity.
  - intros Hfree Hsome r out tr' Hpeek. rewrite Hfree. cbn.
    destruct (Z.ltb_spec 0 (Ring.size (fifo q))); [| lia].
    rewrite Hpeek. cbn. rewrite Nat.eqb_refl. cbn.
    rewrite ?app_nil_r.
    destruct q as [f mu a r']. cbn in Hfree. subst mu. reflexivity.
Qed.

(** X18.  Through the wrapper, one element in and out: on a queue whose
    buffer is empty, with a free unit and the mutex free, [add] of [x]
    returns [true] and the [remove] that follows returns [true] with [x] in
    [*pitem]; both semaphores are back at their values and the buffer is
    empty again. *)
Theorem add_then_remove_through_wrapper (t t' : nat) (x : T)
    (cur : @Ring.rvalue T) q :
  Ring.reachable (fifo q) ->
  Ring.size (fifo q) = 0 ->
  0 < Ring.capacity (fifo q) ->
  mutex q = None ->
  0 < add_sem q ->
  0 <= rem_sem q ->
  exists q1 (tr1 : list event) q2 (tr2 : list event),
    add t x q = Some (Ret (true, q1) tr1) /\
    remove t' (Some cur) q1 = Some (Ret (true, Some (Ring.Val x), q2) tr2) /\
    add_sem q2 = add_sem q /\ rem_sem q2 = rem_sem q /\
    mutex q2 = None /\ Ring.size (fifo q2) = 0.
Proof.
  unfold Ring.size, Ring.capacity.
  intros Hreach Hempty Hcap Hfree Hadd Hrem.
  destruct (RingFacts.reachable_repr _ Hreach) as (qs & Hqs).
  assert (qs = []) as ->.
  { destruct Hqs as (_ & Hlen & _). destruct qs; [reflexivity |].
    cbn in Hlen. lia. }
  destruct (RingFacts.add_repr _ [] x Hqs ltac:(lia))
    as (b1 & Hradd & Hqs1 & _).
  destruct (RingFacts.remove_repr b1 x [] (Some cur) Hqs1)
    as (b2 & st & _ & Hrrem & Hqs2 & _).
  eexists _, _, _, _. split; [| split].
  - unfold add, sem_trywait, sem_value.
    destruct (Z.ltb_spec 0 (add_sem q)); [| lia].
    cbn. unfold pthread_mutex_lock. cbn. rewrite Hfree. cbn.
    rewrite Hradd. cbn. rewrite Nat.eqb_refl. cbn. reflexivity.
  - unfold remove, sem_trywait, sem_value. cbn.
    destruct (Z.ltb_spec 0 (rem_sem q + 1)); [| lia].
    cbn. rewrite Hrrem. cbn. rewrite Nat.eqb_refl. cbn. reflexivity.
  - cbn. conjuncts; try lia. apply Hqs2.
Qed.

(** *** States that interleaving threads reach *)

Lemma quiescent_lookup ps (t : nat) p :
  forallb is_ready ps = true -> ps !! t = Some p -> p = Ready.
Proof.
  revert t. induction ps as [| p0 ps IH]; intros [| t] Hall Hp;
    try discriminate; cbn in Hall; apply andb_prop in Hall as [Hp0 Hps].
  - injection Hp as <-. now destruct p0.
  - now apply (IH t).
Qed.

Lemma busy_thread ps :
  forallb is_ready ps = false ->
  exists (t : nat) p, ps !! t = Some p /\ is_ready p = false.
Proof.
  induction ps as [| p0 ps IH]; cbn; [discriminate |].
  destruct (is_ready p0) eqn:Hp0; cbn.
  - intros Hps. destruct (IH Hps) as (t & p & Hp & Hbusy).
    now exists (S t), p.
  - intros _. now exists 0%nat, p0.
Qed.

(** X14.  Mutual exclusion.  In every state that interleaving threads
    reach, a thread between its lock and its unlock is the one that holds
    the mutex; so at most one thread is there, and when the mutex is free
    none is. *)
Theorem mutual_exclusion (f0 : @Ring.FIFOBuff T) (n : nat)
    (sched : list action) m tr :
  Ring.constructed f0 ->
  run_schedule sched (start n (init f0)) = Some (Ret m tr) ->
  (forall (t : nat) p,
     threads m !! t = Some p -> in_critical p = true ->
     mutex (queue m) = Some t) /\
  (forall (t1 t2 : nat) p1 p2,
     threads m !! t1 = Some p1 -> in_critical p1 = true ->
     threads m !! t2 = Some p2 -> in_critical p2 = true ->
     t1 = t2) /\
  (forall t : nat,
     mutex (queue m) = Some t ->
     exists p, threads m !! t = Some p /\ in_critical p = true).
Proof.
  intros Hf0 Hrun.
  pose proof (inv_mutex _ _ _ (reached_inv f0 n sched m tr Hf0 Hrun))
    as Hmutex.
  split; [| split].
  - intros t p Hp Hc. now apply (mutex_ok_owner _ _ _ _ Hmutex Hp).
  - intros t1 t2 p1 p2 Hp1 Hc1 Hp2 Hc2.
    pose proof (mutex_ok_owner _ _ _ _ Hmutex Hp1 Hc1) as H1.
    pose proof (mutex_ok_owner _ _ _ _ Hmutex Hp2 Hc2) as H2.
    congruence.
  - intros t Ht. now apply Hmutex.
Qed.

(** X15.  A permit is a promise the buffer keeps.  When a thread that took
    a unit from [add_sem] reaches its call into the buffer, the buffer is
    not full and [add] returns [true]; when a thread that took a unit from
    [rem_sem] reaches it, the buffer is not empty and [remove] returns
    [true].  So the results that the wrapper's methods drop are always
    [true]. *)
Theorem permit_guarantees_transfer (f0 : @Ring.FIFOBuff T) (n : nat)
    (sched : list action) m tr (t : nat) (c : transfer) :
  Ring.constructed f0 ->
  run_schedule sched (start n (init f0)) = Some (Ret m tr) ->
  threads m !! t = Some (AtFifo (Transfer c)) ->
  match c with
  | CAdd item | CAddWait item =>
      Ring.size (fifo (queue m)) < Ring.capacity (fifo (queue m)) /\
      exists (b' : Ring.FIFOBuff) (tr' : list Ring.event),
        Ring.add item (fifo (queue m)) = Ret (true, b') tr'
  | CRemove pitem | CRemoveWait pitem =>
      0 < Ring.size (fifo (queue m)) /\
      exists (out : option Ring.rvalue) (b' : Ring.FIFOBuff)
             (tr' : list Ring.event),
        Ring.remove pitem (fifo (queue m)) = Ret (true, out, b') tr'
  end.
Proof.
  intros Hf0 Hrun Hp.
  pose proof (reached_inv f0 n sched m tr Hf0 Hrun) as Hinv.
  destruct (inv_fifo _ _ _ Hinv) as (qs & Hqs).
  unfold Ring.size, Ring.capacity.
  destruct c as [item | item | pitem | pitem].
  - pose proof (adder_finds_room _ m tr t _ Hinv Hp eq_refl) as Hroom.
    split; [assumption |].
    destruct (RingFacts.add_size _ qs item Hqs Hroom)
      as (b' & tr' & Hadd & _). now exists b', tr'.
  - pose proof (adder_finds_room _ m tr t _ Hinv Hp eq_refl) as Hroom.
    split; [assumption |].
    destruct (RingFacts.add_size _ qs item Hqs Hroom)
      as (b' & tr' & Hadd & _). now exists b', tr'.
  - pose proof (remover_finds_element _ m tr t _ Hinv Hp eq_refl) as Helt.
    split; [assumption |].
    destruct (RingFacts.remove_size _ qs pitem Hqs Helt)
      as (out & b' & tr' & Hrem & _). now exists out, b', tr'.
  - pose proof (remover_finds_element _ m tr t _ Hinv Hp eq_refl) as Helt.
    split; [assumption |].
    destruct (RingFacts.remove_size _ qs pitem Hqs Helt)
      as (out & b' & tr' & Hrem & _). now exists out, b', tr'.
Qed.

(** X16.  The semaphores never promise more than the buffer holds: around
    a buffer whose capacity is at most [SEM_VALUE_MAX], in every reachable
    state [rem_sem] is at most the number of buffered elements and
    [add_sem] at most the number of empty slots.  When no thread is inside
    a method both are exact and the mutex is free. *)
Theorem semaphores_match_occupancy (f0 : @Ring.FIFOBuff T) (n : nat)
    (sched : list action) m tr :
  Ring.constructed f0 ->
  Ring.capacity f0 <= SEM_VALUE_MAX ->
  run_schedule sched (start n (init f0)) = Some (Ret m tr) ->
  Ring.capacity (fifo (queue m)) = Ring.capacity f0 /\
  0 <= filled m <= Ring.size (fifo (queue m)) /\
  0 <= free m <= Ring.capacity f0 - Ring.size (fifo (queue m)) /\
  (quiescent m = true ->
   filled m = Ring.size (fifo (queue m)) /\
   free m = Ring.capacity f0 - Ring.size (fifo (queue m)) /\
   mutex (queue m) = None).
Proof.
  intros Hf0 Hfits Hrun.
  pose proof (reached_inv f0 n sched m tr Hf0 Hrun) as Hinv.
  pose proof (inv_free _ _ _ Hinv) as Hfree.
  rewrite (unsigned_int_small (Ring.fifo_cap f0)
             (conj (inv_cap_nonneg _ _ _ Hinv) Hfits)) in Hfree.
  pose proof (inv_filled _ _ _ Hinv) as Hfilled.
  pose proof (inv_sems _ _ _ Hinv) as Hsems.
  pose proof (inv_cap _ _ _ Hinv) as Hcap.
  pose proof (sum_over_nonneg holds_free (threads m) holds_free_nonneg).
  pose proof (sum_over_nonneg holds_filled (threads m) holds_filled_nonneg).
  unfold free, filled, Ring.size, Ring.capacity.
  split; [assumption |]. split; [lia |]. split; [lia |].
  intros Hq. unfold quiescent in Hq.
  rewrite sum_over_quiescent in Hfree, Hfilled
    by (reflexivity || assumption).
  split; [lia |]. split; [lia |].
  destruct (mutex (queue m)) as [t |] eqn:Hm; [| reflexivity].
  destruct (proj1 (inv_mutex _ _ _ Hinv t) Hm) as (p & Hp & Hc).
  rewrite (quiescent_lookup _ _ _ Hq Hp) in Hc. discriminate.
Qed.

(** X17.  Once as many [remove]/[remove_wait] calls as [add]/[add_wait]
    calls have returned with success and no thread is inside a method, the
    buffer is empty and [peek] returns [false]. *)
Theorem drained_queue_is_empty (f0 : @Ring.FIFOBuff T) (n : nat)
    (sched : list action) m tr (t : nat) (cur : @Ring.rvalue T) :
  Ring.constructed f0 ->
  run_schedule sched (start n (init f0)) = Some (Ret m tr) ->
  quiescent m = true ->
  tally successful_add tr = tally successful_remove tr ->
  Ring.size (fifo (queue m)) = 0 /\
  peek t (Some cur) (queue m)
    = Some (Ret (false, Some cur, queue m) [Lock t; Unlock t]).
Proof.
  intros Hf0 Hrun Hq Htally.
  pose proof (reached_inv f0 n sched m tr Hf0 Hrun) as Hinv.
  pose proof (inv_ledger _ _ _ Hinv) as Hledger.
  unfold quiescent in Hq.
  rewrite sum_over_quiescent in Hledger by (reflexivity || assumption).
  assert (Ring.fifo_size (fifo (queue m)) = 0) as Hempty by lia.
  split; [assumption |].
  assert (mutex (queue m) = None) as Hm.
  { destruct (mutex (queue m)) as [t' |] eqn:Hm; [| reflexivity].
    destruct (proj1 (inv_mutex _ _ _ Hinv t') Hm) as (p & Hp & Hc).
    rewrite (quiescent_lookup _ _ _ Hq Hp) in Hc. discriminate. }
  unfold peek, pthread_mutex_lock, peek_locked, Ring.size.
  rewrite Hm. cbn. rewrite Hempty. cbn. rewrite Nat.eqb_refl. cbn.
  destruct (queue m) as [f mu a r]. cbn in Hm. subst mu. reflexivity.
Qed.

(** A thread between lock and unlock can always run its next statement. *)
Lemma critical_enabled m (t : nat) p :
  threads m !! t = Some p -> in_critical p = true ->
  mutex (queue m) = Some t ->
  exists o : outcome event machine, perform (Advance t) m = Some o.
Proof.
  intros Hp Hc Hm. unfold perform. rewrite Hp.
  destruct p as [| c | c | c r out | c out]; try discriminate;
    unfold advance.
  - destruct c as [[item | item | pitem | pitem] | cur];
      unfold peek_locked;
      repeat match goal with
        | |- context [on_fifo ?x] => destruct x as [| [] ?]; cbn
        | |- context [if ?c then _ else _] => destruct c; cbn
        end; eauto.
  - unfold pthread_mutex_unlock. rewrite Hm, Nat.eqb_refl.
    destruct c; cbn; eauto.
Qed.

(** X19.  No deadlock inside the methods.  In every reachable state where
    some thread is inside a method, some thread inside a method can run its
    next statement: the holder of the mutex never waits, and if the mutex
    is free every thread inside a method can go on. *)
Theorem some_thread_can_advance (f0 : @Ring.FIFOBuff T) (n : nat)
    (sched : list action) m tr :
  Ring.constructed f0 ->
  run_schedule sched (start n (init f0)) = Some (Ret m tr) ->
  quiescent m = false ->
  exists (t : nat) m' (evs : list event),
    perform (Advance t) m = Some (Ret m' evs).
Proof.
  intros Hf0 Hrun Hbusy.
  pose proof (reached_inv f0 n sched m tr Hf0 Hrun) as Hinv.
  pose proof (inv_mutex _ _ _ Hinv) as Hmutex.
  assert (exists (t : nat) (o : outcome event machine),
            perform (Advance t) m = Some o) as (t & o & Hperf).
  { destruct (mutex (queue m)) as [t0 |] eqn:Hm.
    - destruct (proj1 (Hmutex t0) eq_refl) as (p0 & Hp0 & Hc0).
      destruct (critical_enabled m t0 p0 Hp0 Hc0 Hm) as (o & Ho).
      now exists t0, o.
    - destruct (busy_thread _ Hbusy) as (t & p & Hp & Hnot).
      exists t. unfold perform. rewrite Hp.
      destruct p as [| c | c | c r out | c out]; try discriminate.
      + unfold advance, pthread_mutex_lock. rewrite Hm. cbn. eauto.
      + pose proof (mutex_ok_owner _ _ _ _ Hmutex Hp eq_refl). discriminate.
      + pose proof (mutex_ok_owner _ _ _ _ Hmutex Hp eq_refl). discriminate.
      + unfold advance, sem_post. cbn. eauto. }
  destruct (advance_inv _ m tr t o Hinv Hperf) as (m' & evs & -> & _).
  now exists t, m', evs.
Qed.

(** X20.  Tearing down a queue that no thread is inside: [~FIFOBuff_TS()]
    closes both semaphores and destroys the free mutex, and the destructor
    of the wrapped buffer then makes one destructor call for each of the
    [rem_sem] elements still buffered, each on a live object. *)
Theorem teardown_finalizes_buffered (f0 : @Ring.FIFOBuff T) (n : nat)
    (sched : list action) m tr :
  Ring.constructed f0 ->
  run_schedule sched (start n (init f0)) = Some (Ret m tr) ->
  quiescent m = true ->
  exists (q : list T) (mem : list Ring.slot),
    Z.of_nat (length q) = filled m /\
    FIFOBuff_TS_dtor (Z.to_nat (filled m)) (queue m) =
      Some (Ret {| Ring.memory := mem;
                   Ring.released := Ring.free_mem (fifo (queue m)) |}
                ([SemClose AddSem; SemClose RemSem; MutexDestroy]
                 ++ map FifoDtor
                      (Ring.window_destructs (fifo (queue m)) q))).
Proof.
  intros Hf0 Hrun Hq.
  pose proof (reached_inv f0 n sched m tr Hf0 Hrun) as Hinv.
  pose proof (inv_filled _ _ _ Hinv) as Hfilled.
  destruct (inv_fifo _ _ _ Hinv) as (q & Hrepr).
  pose proof Hq as Hq'. unfold quiescent in Hq'.
  rewrite sum_over_quiescent in Hfilled by (reflexivity || assumption).
  assert (mutex (queue m) = None) as Hm.
  { destruct (mutex (queue m)) as [t' |] eqn:Hm; [| reflexivity].
    destruct (proj1 (inv_mutex _ _ _ Hinv t') Hm) as (p & Hp & Hc).
    rewrite (quiescent_lookup _ _ _ Hq' Hp) in Hc. discriminate. }
  assert (Z.of_nat (length q) = filled m) as Hlen.
  { destruct Hrepr as (_ & Hsize & _). unfold filled. lia. }
  destruct (RingFacts.dtor_loop_repr q (Z.to_nat (filled m)) _ Hrepr)
    as (b' & Hloop & Hfree & _); [lia |].
  exists q, (Ring.buffer b'). split; [assumption |].
  unfold FIFOBuff_TS_dtor, Ring.FIFOBuff_dtor. rewrite Hm, Hloop. cbn.
  now rewrite app_nil_r, Hfree.
Qed.

End Facts.

(** ** The claims at concrete queues *)

Lemma permits_partition_capacity_witness :
  let sched : list (@action Z) :=
    [Invoke 0 (Transfer (CAdd 5)); Invoke 1 (Transfer (CAddWait 6));
     Advance 1; Advance 1; Advance 1; Advance 0; Advance 0; Advance 1;
     Advance 0; Advance 0;
     Invoke 1 (Transfer (CAdd 7));
     Invoke 0 (Transfer (CRemove (Some Ring.Indet)));
     Advance 0; Advance 0; Advance 0; Advance 0] in
  let m : @machine Z :=
    {| queue :=
         {| fifo :=
              {| Ring.buffer := [Ring.Dead 6; Ring.Live 5];
                 Ring.head := 1; Ring.tail := 0; Ring.fifo_size := 1;
                 Ring.fifo_cap := 2; Ring.free_mem := true |};
            mutex := None; add_sem := 1; rem_sem := 1 |};
       threads := [Ready; Ready] |} in
  let tr : list (@event Z) :=
    [TryWait AddSem true; Wait AddSem; Lock 1;
     Fifo (Ring.Construct 0 6); Unlock 1;
     Lock 0; Fifo (Ring.Construct 1 5); Post RemSem;
     Returned 1 (Transfer (CAddWait 6)) true None;
     Unlock 0; Post RemSem; Returned 0 (Transfer (CAdd 5)) true None;
     TryWait AddSem false; Returned 1 (Transfer (CAdd 7)) false None;
     TryWait RemSem true; Lock 0; Fifo (Ring.Load 0);
     Fifo (Ring.Destruct 0 (Ring.Live 6));
     Unlock 0; Post AddSem;
     Returned 0 (Transfer (CRemove (Some Ring.Indet))) true
       (Some (Ring.Val 6))] in
  run_schedule sched (start 2 (init (Ring.FIFOBuff_new 2)))
    = Some (Ret m tr) /\
  quiescent m = true /\
  filled m = 2 - 1 /\ free m = 2 - (2 - 1) /\ free m + filled m = 2.
Proof.
  intros sched m tr. split; [reflexivity |]. split; [reflexivity |].
  destruct (permits_partition_capacity (Ring.FIFOBuff_new 2) 2 sched
              (Ret m tr)
              (Ring.constructed_new 2
                 (RingFacts.is_size_t_small 2 ltac:(lia)))
              ltac:(vm_compute; discriminate)
              eq_refl)
    as (m' & tr' & Heq & _ & Hquiet).
  injection Heq as <- <-. apply Hquiet. reflexivity.
Defined.

(** At capacity [2 ^ 32 + 1] the semaphore "TSQueue_AddSem" starts with one
    unit: before any call, free + filled is 1, not the capacity. *)
Lemma capacity_beyond_unsigned_int :
  let f0 : @Ring.FIFOBuff Z := Ring.FIFOBuff_new (2 ^ 32 + 1) in
  let m : @machine Z := start 1 (init f0) in
  Ring.constructed f0 /\
  sem_open_ok (Ring.capacity f0) /\
  run_schedule [] (start 1 (init f0)) = Some (Ret m []) /\
  quiescent m = true /\
  free m = 1 /\ filled m = 0 /\
  Ring.capacity f0 = 2 ^ 32 + 1 /\
  free m + filled m <> Ring.capacity f0 /\
  free m <> Ring.capacity f0.
Proof.
  intros f0 m.
  assert (free m = 1) as Hfree.
  { unfold free, m, start, init, f0, Ring.capacity, Ring.FIFOBuff_new.
    cbn [queue add_sem Ring.fifo_cap]. reflexivity. }
  assert (Ring.capacity f0 = 2 ^ 32 + 1) as Hcap by reflexivity.
  split; [| split; [| split; [| split; [| split; [| split; [| split;
    [| split]]]]]]].
  - apply Ring.constructed_new. unfold is_size_t, SIZE_MAX. lia.
  - unfold sem_open_ok. rewrite Hcap. vm_compute. discriminate.
  - reflexivity.
  - reflexivity.
  - exact Hfree.
  - reflexivity.
  - exact Hcap.
  - rewrite Hfree, Hcap. cbn. lia.
  - rewrite Hfree, Hcap. lia.
Qed.


(** ** The further properties at concrete queues *)

Lemma try_remove_witness :
  let q : @FIFOBuff_TS Z :=
    {| fifo := {| Ring.buffer := [Ring.Live 9]; Ring.head := 0;
                  Ring.tail := 0; Ring.fifo_size := 1; Ring.fifo_cap := 1;
                  Ring.free_mem := true |};
       mutex := None; add_sem := 0; rem_sem := 1 |} in
  remove 1 (Some Ring.Indet) (@FIFOBuff_TS_new Z 2) =
    Some (Ret (false, Some Ring.Indet, FIFOBuff_TS_new 2)
              [TryWait RemSem false]) /\
  remove 1 (Some Ring.Indet) q =
    Some (Ret (true, Some (Ring.Val 9),
               {| fifo := {| Ring.buffer := [Ring.Dead 9]; Ring.head := 0;
                             Ring.tail := 0; Ring.fifo_size := 0;
                             Ring.fifo_cap := 1; Ring.free_mem := true |};
                  mutex := None; add_sem := 0 + 1; rem_sem := 1 - 1 |})
              [TryWait RemSem true; Lock 1; Fifo (Ring.Load 0);
               Fifo (Ring.Destruct 0 (Ring.Live 9)); Unlock 1;
               Post AddSem]).
Proof.
  intros q. split.
  - apply (proj1 (try_remove 1 (Some Ring.Indet) (FIFOBuff_TS_new 2))).
    cbn. lia.
  - apply (proj2 (try_remove 1 (Some Ring.Indet) q)
             ltac:(cbn; lia) eq_refl true (Some (Ring.Val 9))
             {| Ring.buffer := [Ring.Dead 9]; Ring.head := 0;
                Ring.tail := 0; Ring.fifo_size := 0; Ring.fifo_cap := 1;
                Ring.free_mem := true |}
             [Ring.Load 0; Ring.Destruct 0 (Ring.Live 9)]).
    reflexivity.
Defined.

Lemma add_wait_agrees_with_add_witness :
  (add 0 7 (@FIFOBuff_TS_new Z 0) =
     Some (Ret (false, FIFOBuff_TS_new 0) [TryWait AddSem false]) /\
   add_wait 0 7 (@FIFOBuff_TS_new Z 0) = None) /\
  match add 0 7 (@FIFOBuff_TS_new Z 2), add_wait 0 7 (@FIFOBuff_TS_new Z 2)
  with
  | Some (Ret (r, q1) tr1), Some (Ret q2 tr2) =>
      r = true /\ q1 = q2 /\
      tr1 = TryWait AddSem true :: tail tr1 /\
      tr2 = Wait AddSem :: tail tr1
  | Some Fault, Some Fault => True
  | None, None => True
  | _, _ => False
  end.
Proof.
  split.
  - apply (proj1 (add_wait_agrees_with_add 0 7 (FIFOBuff_TS_new 0))).
    vm_compute; first [reflexivity | discriminate].
  - apply (proj2 (add_wait_agrees_with_add 0 7 (FIFOBuff_TS_new 2))).
    vm_compute; first [reflexivity | discriminate].
Defined.

Lemma remove_wait_agrees_with_remove_witness :
  let q : @FIFOBuff_TS Z :=
    {| fifo := {| Ring.buffer := [Ring.Live 9]; Ring.head := 0;
                  Ring.tail := 0; Ring.fifo_size := 1; Ring.fifo_cap := 1;
                  Ring.free_mem := true |};
       mutex := None; add_sem := 0; rem_sem := 1 |} in
  (remove 0 None (@FIFOBuff_TS_new Z 1) =
     Some (Ret (false, None, FIFOBuff_TS_new 1) [TryWait RemSem false]) /\
   remove_wait 0 None (@FIFOBuff_TS_new Z 1) = None) /\
  match remove 0 None q, remove_wait 0 None q with
  | Some (Ret (r, out1, q1) tr1), Some (Ret (out2, q2) tr2) =>
      r = true /\ out1 = out2 /\ q1 = q2 /\
      tr1 = TryWait RemSem true :: tail tr1 /\
      tr2 = Wait RemSem :: tail tr1
  | Some Fault, Some Fault => True
  | None, None => True
  | _, _ => False
  end.
Proof.
  intros q. split.
  - apply (proj1 (remove_wait_agrees_with_remove 0 None
                    (FIFOBuff_TS_new 1))).
    cbn. lia.
  - apply (proj2 (remove_wait_agrees_with_remove 0 None q)).
    cbn. lia.
Defined.

Lemma peek_leaves_queue_witness :
  let q : @FIFOBuff_TS Z :=
    {| fifo := {| Ring.buffer := [Ring.Live 9]; Ring.head := 0;
                  Ring.tail := 0; Ring.fifo_size := 1; Ring.fifo_cap := 1;
                  Ring.free_mem := true |};
       mutex := None; add_sem := 0; rem_sem := 1 |} in
  peek 2 (Some Ring.Indet) (set_mutex (Some 5%nat) q) = None /\
  peek 2 (Some Ring.Indet) (@FIFOBuff_TS_new Z 1) =
    Some (Ret (false, Some Ring.Indet, FIFOBuff_TS_new 1)
              [Lock 2; Unlock 2]) /\
  peek 2 (Some Ring.Indet) q =
    Some (Ret (true, Some (Ring.Val 9), q)
              [Lock 2; Fifo (Ring.Load 0); Unlock 2]).
Proof.
  intros q. split; [| split].
  - apply (proj1 (peek_leaves_queue 2 (Some Ring.Indet)
                    (set_mutex (Some 5%nat) q)) 5%nat).
    reflexivity.
  - apply (proj1 (proj2 (peek_leaves_queue 2 (Some Ring.Indet)
                           (FIFOBuff_TS_new 1)))).
    + reflexivity.
    + cbn. lia.
  - apply (proj2 (proj2 (peek_leaves_queue 2 (Some Ring.Indet) q))
             eq_refl ltac:(cbn; lia) true (Some (Ring.Val 9))
             [Ring.Load 0]).
    reflexivity.
Defined.

Lemma add_then_remove_through_wrapper_witness :
  let q : @FIFOBuff_TS Z :=
    {| fifo := {| Ring.buffer := [Ring.Live 1; Ring.Raw; Ring.Raw];
                  Ring.head := 1; Ring.tail := 1; Ring.fifo_size := 0;
                  Ring.fifo_cap := 3; Ring.free_mem := true |};
       mutex := None; add_sem := 3; rem_sem := 0 |} in
  exists q1 (tr1 : list event) q2 (tr2 : list event),
    add 0 7 q = Some (Ret (true, q1) tr1) /\
    remove 1 (Some Ring.Indet) q1
      = Some (Ret (true, Some (Ring.Val 7), q2) tr2) /\
    add_sem q2 = add_sem q /\ rem_sem q2 = rem_sem q /\
    mutex q2 = None /\ Ring.size (fifo q2) = 0.
Proof.
  intros q. apply (add_then_remove_through_wrapper 0 1 7 Ring.Indet q).
  - exists (Ring.FIFOBuff_new 3), [Ring.Add 1; Ring.Remove None],
      [(true, None); (true, None)],
      [Ring.Construct 0 1; Ring.Destruct 1 Ring.Raw].
    split; [| reflexivity].
    apply Ring.constructed_new, RingFacts.is_size_t_small. lia.
  - reflexivity.
  - reflexivity.
  - reflexivity.
  - cbn. lia.
  - cbn. lia.
Defined.

Lemma mutual_exclusion_witness :
  let m : @machine Z :=
    {| queue := {| fifo := Ring.FIFOBuff_new 2; mutex := Some 0%nat;
                   add_sem := 0; rem_sem := 0 |};
       threads := [AtFifo (Transfer (CAdd 5)); AtLock (CAddWait 6)] |} in
  (forall (t : nat) p,
     threads m !! t = Some p -> in_critical p = true ->
     mutex (queue m) = Some t) /\
  (forall (t1 t2 : nat) p1 p2,
     threads m !! t1 = Some p1 -> in_critical p1 = true ->
     threads m !! t2 = Some p2 -> in_critical p2 = true ->
     t1 = t2) /\
  (forall t : nat,
     mutex (queue m) = Some t ->
     exists p, threads m !! t = Some p /\ in_critical p = true).
Proof.
  intros m.
  apply (mutual_exclusion (Ring.FIFOBuff_new 2) 2
           [Invoke 0 (Transfer (CAdd 5));
            Invoke 1 (Transfer (CAddWait 6)); Advance 0] m
           [TryWait AddSem true; Wait AddSem; Lock 0]).
  - apply Ring.constructed_new, RingFacts.is_size_t_small. lia.
  - reflexivity.
Defined.

Lemma permit_guarantees_transfer_witness :
  let f : @Ring.FIFOBuff Z := Ring.FIFOBuff_new 2 in
  Ring.size f < Ring.capacity f /\
  exists (b' : Ring.FIFOBuff) (tr' : list Ring.event),
    Ring.add 5 f = Ret (true, b') tr'.
Proof.
  intros f.
  apply (permit_guarantees_transfer (Ring.FIFOBuff_new 2) 2
           [Invoke 0 (Transfer (CAdd 5));
            Invoke 1 (Transfer (CAddWait 6)); Advance 0]
           {| queue := {| fifo := f; mutex := Some 0%nat;
                          add_sem := 0; rem_sem := 0 |};
              threads := [AtFifo (Transfer (CAdd 5));
                          AtLock (CAddWait 6)] |}
           [TryWait AddSem true; Wait AddSem; Lock 0]
           0 (CAdd 5)).
  - apply Ring.constructed_new, RingFacts.is_size_t_small. lia.
  - reflexivity.
  - reflexivity.
Defined.

Lemma some_thread_can_advance_witness :
  let m : @machine Z :=
    {| queue := {| fifo := Ring.FIFOBuff_new 2; mutex := Some 0%nat;
                   add_sem := 0; rem_sem := 0 |};
       threads := [AtFifo (Transfer (CAdd 5)); AtLock (CAddWait 6)] |} in
  exists (t : nat) m' (evs : list event),
    perform (Advance t) m = Some (Ret m' evs).
Proof.
  intros m.
  apply (some_thread_can_advance (Ring.FIFOBuff_new 2) 2
           [Invoke 0 (Transfer (CAdd 5));
            Invoke 1 (Transfer (CAddWait 6)); Advance 0] m
           [TryWait AddSem true; Wait AddSem; Lock 0]).
  - apply Ring.constructed_new, RingFacts.is_size_t_small. lia.
  - reflexivity.
  - reflexivity.
Defined.

Lemma drained_queue_is_empty_witness :
  let m : @machine Z :=
    {| queue :=
         {| fifo :=
              {| Ring.buffer := [Ring.Live 5; Ring.Raw];
                 Ring.head := 1; Ring.tail := 1; Ring.fifo_size := 0;
                 Ring.fifo_cap := 2; Ring.free_mem := true |};
            mutex := None; add_sem := 2; rem_sem := 0 |};
       threads := [Ready; Ready] |} in
  Ring.size (fifo (queue m)) = 0 /\
  peek 1 (Some Ring.Indet) (queue m)
    = Some (Ret (false, Some Ring.Indet, queue m) [Lock 1; Unlock 1]).
Proof.
  intros m.
  apply (drained_queue_is_empty (Ring.FIFOBuff_new 2) 2
           [Invoke 0 (Transfer (CAddWait 5));
            Advance 0; Advance 0; Advance 0; Advance 0;
            Invoke 1 (Transfer (CRemoveWait (Some Ring.Indet)));
            Advance 1; Advance 1; Advance 1; Advance 1] m
           [Wait AddSem; Lock 0; Fifo (Ring.Construct 0 5); Unlock 0;
            Post RemSem; Returned 0 (Transfer (CAddWait 5)) true None;
            Wait RemSem; Lock 1; Fifo (Ring.Load 0);
            Fifo (Ring.Destruct 1 Ring.Raw); Unlock 1; Post AddSem;
            Returned 1 (Transfer (CRemoveWait (Some Ring.Indet))) true
              (Some (Ring.Val 5))]).
  - apply Ring.constructed_new, RingFacts.is_size_t_small. lia.
  - reflexivity.
  - reflexivity.
  - reflexivity.
Defined.

Lemma semaphores_match_occupancy_witness :
  let m : @machine Z :=
    {| queue := {| fifo :=
                     {| Ring.buffer := [Ring.Live 5; Ring.Raw];
                        Ring.head := 0; Ring.tail := 1;
                        Ring.fifo_size := 1; Ring.fifo_cap := 2;
                        Ring.free_mem := true |};
                   mutex := Some 0%nat; add_sem := 0; rem_sem := 0 |};
       threads := [AtUnlock (Transfer (CAdd 5)) true None;
                   AtLock (CAddWait 6)] |} in
  Ring.capacity (fifo (queue m)) = 2 /\
  0 <= filled m <= Ring.size (fifo (queue m)) /\
  0 <= free m <= 2 - Ring.size (fifo (queue m)) /\
  (quiescent m = true ->
   filled m = Ring.size (fifo (queue m)) /\
   free m = 2 - Ring.size (fifo (queue m)) /\
   mutex (queue m) = None).
Proof.
  intros m.
  apply (semaphores_match_occupancy (Ring.FIFOBuff_new 2) 2
           [Invoke 0 (Transfer (CAdd 5));
            Invoke 1 (Transfer (CAddWait 6)); Advance 0; Advance 0] m
           [TryWait AddSem true; Wait AddSem; Lock 0;
            Fifo (Ring.Construct 0 5)]).
  - apply Ring.constructed_new, RingFacts.is_size_t_small. lia.
  - vm_compute. discriminate.
  - reflexivity.
Defined.

Lemma teardown_finalizes_buffered_witness :
  let m : @machine Z :=
    {| queue :=
         {| fifo :=
              {| Ring.buffer := [Ring.Live 5; Ring.Raw];
                 Ring.head := 0; Ring.tail := 1; Ring.fifo_size := 1;
                 Ring.fifo_cap := 2; Ring.free_mem := true |};
            mutex := None; add_sem := 1; rem_sem := 1 |};
       threads := [Ready; Ready] |} in
  exists (q : list Z) (mem : list Ring.slot),
    Z.of_nat (length q) = filled m /\
    FIFOBuff_TS_dtor (Z.to_nat (filled m)) (queue m) =
      Some (Ret {| Ring.memory := mem;
                   Ring.released := Ring.free_mem (fifo (queue m)) |}
                ([SemClose AddSem; SemClose RemSem; MutexDestroy]
                 ++ map FifoDtor
                      (Ring.window_destructs (fifo (queue m)) q))).
Proof.
  intros m.
  apply (teardown_finalizes_buffered (Ring.FIFOBuff_new 2) 2
           [Invoke 0 (Transfer (CAddWait 5));
            Advance 0; Advance 0; Advance 0; Advance 0] m
           [Wait AddSem; Lock 0; Fifo (Ring.Construct 0 5); Unlock 0;
            Post RemSem; Returned 0 (Transfer (CAddWait 5)) true None]).
  - apply Ring.constructed_new, RingFacts.is_size_t_small. lia.
  - reflexivity.
  - reflexivity.
Defined.

End TSFacts.
